(** * Reuniones: the live capture-and-streaming core, embedded in Rocq

    The development follows the TypeScript sources:

    - [services/audioUtils.ts]   the sample converter
      ([float32ToInt16], [arrayBufferToBase64]);
    - [App.tsx]                  the transcript reconciler
      ([handleLiveUpdate]) and the CSV export ([handleExport]);
    - [services/geminiService.ts] the batch transcription call
      ([transcribeAudioFile]);
    - [components/LiveSession.tsx] the capture engine and its session
      ([startSession], [processor.onaudioprocess], [stopSession]).

    JavaScript numbers are IEEE-754 binary64 values; they are modelled by
    the Standard Library's executable specification [SpecFloat], so the
    converter is evaluated bit for bit.  Typed arrays and React state
    lists are lists with index lookup and update. *)

From Stdlib Require Import ZArith QArith Qabs Lia List String Ascii.
From Stdlib Require Import Floats.SpecFloat.
From stdpp Require Import base list strings.
Import ListNotations.

Local Open Scope Z_scope.

(** ** JavaScript numbers *)

Module Number.

(** A Number is a binary64 float: 53 bits of precision, [emax = 1024]. *)
Definition prec : Z := 53.
Definition emax : Z := 1024.

Definition float : Type := spec_float.

Definition NaN : float := S754_nan.
Definition Infinity : float := S754_infinity false.

(** An integer literal of the program text ([1], [0x8000], [0x7FFF]). *)
Definition lit (z : Z) : float := binary_normalize prec emax z 0 false.

(** Unary minus, [*] and [<] on Numbers. *)
Definition neg (x : float) : float := SFopp x.
Definition mul (x y : float) : float := SFmul prec emax x y.
Definition lt (x y : float) : bool := SFltb x y.

(** [Math.min] and [Math.max] (ECMA-262, 21.3.2.24 and 21.3.2.25): the
    arguments are folded from [+Infinity] (resp. [-Infinity]); a NaN
    argument makes the result NaN, and [-0] counts as smaller than [+0]. *)
Definition min_step (lowest number : float) : float :=
  match lowest, number with
  | S754_nan, _ | _, S754_nan => S754_nan
  | S754_zero false, S754_zero true => number
  | _, _ => if SFltb number lowest then number else lowest
  end.

Definition max_step (highest number : float) : float :=
  match highest, number with
  | S754_nan, _ | _, S754_nan => S754_nan
  | S754_zero true, S754_zero false => number
  | _, _ => if SFltb highest number then number else highest
  end.

Definition Math_min (a b : float) : float :=
  min_step (min_step Infinity a) b.

Definition Math_max (a b : float) : float :=
  max_step (max_step (neg Infinity) a) b.

(** [truncate]: the integer part of a finite Number, towards zero. *)
Definition truncate (x : float) : Z :=
  match x with
  | S754_finite s m (Zneg p) => cond_Zopp s (Z.shiftr (Zpos m) (Zpos p))
  | S754_finite s m e => cond_Zopp s (Z.shiftl (Zpos m) e)
  | _ => 0
  end.

(** [ToInt16] (ECMA-262, 7.1.8), the conversion applied by a store into
    an [Int16Array]: NaN, the zeros and the infinities give 0; a finite
    Number is truncated and wrapped modulo 2^16 into [-2^15, 2^15). *)
Definition signed16 (int16bit : Z) : Z :=
  if 2 ^ 15 <=? int16bit then int16bit - 2 ^ 16 else int16bit.

Definition ToInt16 (x : float) : Z :=
  match x with
  | S754_finite _ _ _ => signed16 (truncate x mod 2 ^ 16)
  | _ => 0
  end.

(** Reading an element of a [Float32Array]: the stored binary32 value
    (24 bits of precision, [emax = 128]) converted to a Number.  The
    conversion is exact; [binary_round] renormalises the mantissa. *)
Definition of_float32 (x : spec_float) : float :=
  match x with
  | S754_finite s m e => binary_round prec emax s m e
  | _ => x
  end.

(** The binary32 values, the elements a [Float32Array] can hold. *)
Definition is_float32 (x : spec_float) : bool := valid_binary 24 128 x.

End Number.

(** ** services/audioUtils.ts *)

Module AudioUtils.
Import Number.

(** A [Float32Array] is the list of its binary32 elements, an
    [Int16Array] the list of its elements as integers. *)
Abbreviation Float32Array := (list spec_float).
Abbreviation Int16Array := (list Z).

(** [float32Array[i]]: an index out of range reads [undefined], which the
    arithmetic that follows converts to NaN. *)
Definition Float32Array_get (a : Float32Array) (i : nat) : float :=
  match a !! i with
  | Some v => of_float32 v
  | None => NaN
  end.

(** The body of the loop of [float32ToInt16], for one sample:
    [s = Math.max(-1, Math.min(1, x))] and then
    [s < 0 ? s * 0x8000 : s * 0x7FFF], stored through [ToInt16]. *)
Definition clamp (x : float) : float :=
  Math_max (neg (lit 1)) (Math_min (lit 1) x).

Definition scale (s : float) : float :=
  if lt s (lit 0) then mul s (lit 0x8000) else mul s (lit 0x7FFF).

Definition sample_to_int16 (x : float) : Z := ToInt16 (scale (clamp x)).

(** [for (let i = 0; i < float32Array.length; i++) int16Array[i] = ...]:
    [n] counts the iterations that remain.  A store into a typed array
    at an index out of range is ignored, as stdpp's list insert is. *)
Fixpoint float32ToInt16_loop (float32Array : Float32Array) (n i : nat)
    (int16Array : Int16Array) : Int16Array :=
  match n with
  | O => int16Array
  | S n' =>
      let v := sample_to_int16 (Float32Array_get float32Array i) in
      float32ToInt16_loop float32Array n' (S i) (<[i := v]> int16Array)
  end.

(** [new Int16Array(float32Array.length)] is zero-filled. *)
Definition float32ToInt16 (float32Array : Float32Array) : Int16Array :=
  float32ToInt16_loop float32Array (length float32Array) 0
    (replicate (length float32Array) 0).

(** The [ArrayBuffer] behind an [Int16Array], as the list of its bytes:
    each element is stored in two's complement, low byte first (the
    byte order of every platform the browsers run on). *)
Abbreviation ArrayBuffer := (list Z).

Definition buffer (a : Int16Array) : ArrayBuffer :=
  flat_map (fun v => [Z.land v 255; Z.land (Z.shiftr v 8) 255]) a.

(** A binary string is a string of code units below 256; one 8-bit
    character stands for each.  [String.fromCharCode(b)] for an element
    [b] of a [Uint8Array], which lies in 0..255. *)
Definition fromCharCode (code : Z) : ascii := ascii_of_N (Z.to_N code).

Definition charCode (c : ascii) : Z := Z.of_N (N_of_ascii c).

(** [btoa]: the Base64 encoding (RFC 4648, with padding) of a binary
    string. *)
Definition alphabet : string :=
  "ABCDEFGHIJKLMNOPQRSTUVWXYZabcdefghijklmnopqrstuvwxyz0123456789+/".

Definition digit (i : Z) : ascii :=
  match String.get (Z.to_nat i) alphabet with
  | Some c => c
  | None => "="%char
  end.

Fixpoint btoa_codes (codes : list Z) : string :=
  match codes with
  | [] => ""
  | [b0] =>
      String (digit (Z.shiftr b0 2))
        (String (digit (Z.shiftl (Z.land b0 3) 4)) "==")
  | [b0; b1] =>
      String (digit (Z.shiftr b0 2))
        (String (digit (Z.lor (Z.shiftl (Z.land b0 3) 4) (Z.shiftr b1 4)))
           (String (digit (Z.shiftl (Z.land b1 15) 2)) "="))
  | b0 :: b1 :: b2 :: rest =>
      String (digit (Z.shiftr b0 2))
        (String (digit (Z.lor (Z.shiftl (Z.land b0 3) 4) (Z.shiftr b1 4)))
           (String (digit (Z.lor (Z.shiftl (Z.land b1 15) 2) (Z.shiftr b2 6)))
              (String (digit (Z.land b2 63)) (btoa_codes rest))))
  end.

Definition btoa (binary : string) : string :=
  btoa_codes (map charCode (list_ascii_of_string binary)).

(** [arrayBufferToBase64]: the loop appends one character per byte of
    the [Uint8Array] view ([bytes[i]] out of range would read
    [undefined], whose character code is 0), then [btoa] encodes. *)
Fixpoint arrayBufferToBase64_loop (bytes : list Z) (n i : nat)
    (binary : string) : string :=
  match n with
  | O => binary
  | S n' =>
      arrayBufferToBase64_loop bytes n' (S i)
        (binary +:+ String (fromCharCode (default 0 (bytes !! i))) "")
  end.

Definition arrayBufferToBase64 (buffer : ArrayBuffer) : string :=
  let bytes := buffer in
  let len := length bytes in
  btoa (arrayBufferToBase64_loop bytes len 0 "").

End AudioUtils.

(** ** Exact-arithmetic reading of the converter's contract *)

Module Amplitude.

(** The rational value of a finite float; zeros (and, by convention,
    the non-finite values) map to 0. *)
Definition F2Q (x : spec_float) : Q :=
  match x with
  | S754_finite s m (Zneg p) => cond_Zopp s (Zpos m) # 2 ^ p
  | S754_finite s m e => inject_Z (cond_Zopp s (Zpos m * 2 ^ e))
  | _ => 0
  end.

(** "Each sample is clamped to [-1, 1]". *)
Definition clampQ (v : Q) : Q :=
  if Qle_bool 1 v then 1 else if Qle_bool v (-1) then -1 else v.

(** The clamped amplitude of a sample that is a number; the infinities
    clamp to the bounds. *)
Definition clamped_amplitude (x : spec_float) : Q :=
  match x with
  | S754_infinity s => if s then -1 else 1
  | _ => clampQ (F2Q x)
  end.

(** "negative values scaled by 32768, non-negative by 32767". *)
Definition scaleQ (c : Q) : Q :=
  if Qle_bool 0 c then c * 32767 else c * 32768.

(** The integer part of a rational, towards zero. *)
Definition Qtrunc (q : Q) : Z := Z.quot (Qnum q) (Zpos (Qden q)).

End Amplitude.

(** ** The inverse decode of the wire format

    The receiving side of the streaming protocol is not part of the
    repository.  The decoder below inverts the converter step by step:
    Base64 text to bytes, byte pairs (low byte first) to 16-bit signed
    integers, integers to amplitudes by the converter's own two scales. *)

Module WireDecode.
Import Number AudioUtils.

Fixpoint index_from (c : ascii) (cs : list ascii) (i : Z) : option Z :=
  match cs with
  | [] => None
  | c' :: cs' => if Ascii.eqb c c' then Some i else index_from c cs' (i + 1)
  end.

(** The position of a character in the Base64 alphabet. *)
Definition digit_value (c : ascii) : option Z :=
  index_from c (list_ascii_of_string alphabet) 0.

Definition is_pad (c : ascii) : bool := Ascii.eqb c "=".

Fixpoint base64_bytes (cs : list ascii) : option (list Z) :=
  match cs with
  | [] => Some []
  | c0 :: c1 :: c2 :: c3 :: rest =>
      match digit_value c0, digit_value c1 with
      | Some i0, Some i1 =>
          let b0 := Z.lor (Z.shiftl i0 2) (Z.shiftr i1 4) in
          if is_pad c3 then
            match rest with
            | [] =>
                if is_pad c2 then Some [b0]
                else
                  match digit_value c2 with
                  | Some i2 =>
                      Some [b0; Z.lor (Z.shiftl (Z.land i1 15) 4) (Z.shiftr i2 2)]
                  | None => None
                  end
            | _ => None
            end
          else
            match digit_value c2, digit_value c3, base64_bytes rest with
            | Some i2, Some i3, Some bs =>
                Some (b0
                      :: Z.lor (Z.shiftl (Z.land i1 15) 4) (Z.shiftr i2 2)
                      :: Z.lor (Z.shiftl (Z.land i2 3) 6) i3
                      :: bs)
            | _, _, _ => None
            end
      | _, _ => None
      end
  | _ => None
  end.

Fixpoint int16s (bytes : list Z) : option (list Z) :=
  match bytes with
  | [] => Some []
  | lo :: hi :: rest =>
      match int16s rest with
      | Some ns => Some (signed16 (Z.lor lo (Z.shiftl hi 8)) :: ns)
      | None => None
      end
  | _ => None
  end.

(** The amplitude a code stands for, and the spacing of the amplitudes
    around it: negative codes were scaled by 32768, the others by 32767. *)
Definition amplitude (n : Z) : Q :=
  if n <? 0 then n # 32768 else n # 32767.

Definition quantization_step (n : Z) : Q :=
  if n <? 0 then 1 # 32768 else 1 # 32767.

Definition decode_int16 (data : string) : option (list Z) :=
  match base64_bytes (list_ascii_of_string data) with
  | Some bytes => int16s bytes
  | None => None
  end.

Definition decode (data : string) : option (list Q) :=
  match decode_int16 data with
  | Some ns => Some (map amplitude ns)
  | None => None
  end.

End WireDecode.

(** ** types.ts *)

Module Types.

Inductive Gender := Masculino | Femenino | Desconocido.

Record TranscriptSegment := {
  speaker : string;
  gender : Gender;
  timestamp : string;
  text : string;
}.

Inductive AppMode := UPLOAD | LIVE.

Record ProcessingState := {
  isProcessing : bool;
  progress : option string;
  error : option string;
}.

(** The string a [Gender] is at run time. *)
Definition gender_string (g : Gender) : string :=
  match g with
  | Masculino => "Masculino"
  | Femenino => "Femenino"
  | Desconocido => "Desconocido"
  end.

End Types.

(** ** App.tsx *)

Module App.
Import Types.

(** [xs[i]] on an array: [undefined] outside [0 .. length-1]. *)
Definition array_get {A : Type} (xs : list A) (i : Z) : option A :=
  if i <? 0 then None else xs !! Z.to_nat i.

(** The state updater passed to [setTranscripts] by [handleLiveUpdate].
    [now] is the reading of
    [new Date().toLocaleTimeString([], {minute:'2-digit', second:'2-digit'})]
    when the updater runs.  The store [updated[updated.length - 1] = ...]
    happens only when [last] exists, so its index is in range. *)
Definition handleLiveUpdate (now text : string)
    (prev : list TranscriptSegment) : list TranscriptSegment :=
  let fresh :=
    {| speaker := "En Vivo"; gender := Desconocido;
       timestamp := now; text := text |} in
  match array_get prev (Z.of_nat (length prev) - 1) with
  | Some last =>
      if String.eqb (speaker last) "En Vivo" then
        let updated := prev in
        <[Z.to_nat (Z.of_nat (length updated) - 1) :=
            {| speaker := speaker last; gender := gender last;
               timestamp := timestamp last;
               text := Types.text last +:+ text |}]> updated
      else prev ++ [fresh]
  | None => prev ++ [fresh]
  end.

(** [handleExport]: the text of the CSV blob, or [None] when the
    function returns early on an empty transcript. *)
Definition quote : ascii := "034".
Definition newline : string := String "010" "".

(** The global replacement of [safeText]: every double-quote
    character of the text becomes two. *)
Fixpoint replace_quotes (s : string) : string :=
  match s with
  | EmptyString => EmptyString
  | String c s' =>
      if Ascii.eqb c quote
      then String quote (String quote (replace_quotes s'))
      else String c (replace_quotes s')
  end.

Definition safeText (t : TranscriptSegment) : string :=
  String quote (replace_quotes (text t) +:+ String quote "").

Definition row (t : TranscriptSegment) : string :=
  speaker t +:+ "," +:+ gender_string (gender t) +:+ ","
    +:+ timestamp t +:+ "," +:+ safeText t +:+ newline.

Definition header : string := "Hablante,Género,Tiempo,Texto" +:+ newline.

Definition handleExport (transcripts : list TranscriptSegment)
    : option string :=
  if (length transcripts =? 0)%nat then None
  else Some (fold_left (fun content t => content +:+ row t) transcripts header).

End App.

(** ** JSON texts

    [JSON.parse] is a built-in; [transcribeAudioFile] is stated over any
    parser, and [JSON.parse] below is a recursive-descent reading of the
    JSON grammar (ECMA-404) used to run it.  Numbers and strings are kept
    as written: their tokens are checked, not evaluated. *)

Module JSON.

#[warnings="-register-all"] Inductive json :=
| JNull
| JBool (b : bool)
| JNumber (token : string)
| JString (token : string)
| JArray (elements : list json)
| JObject (members : list (string * json)).

Definition is_ws (c : ascii) : bool :=
  Ascii.eqb c " " || Ascii.eqb c "009" || Ascii.eqb c "010" || Ascii.eqb c "013".

Fixpoint skip_ws (cs : list ascii) : list ascii :=
  match cs with
  | c :: cs' => if is_ws c then skip_ws cs' else cs
  | [] => []
  end.

(** [eat w cs]: what follows the word [w] at the head of [cs]. *)
Fixpoint eat (w cs : list ascii) : option (list ascii) :=
  match w, cs with
  | [], _ => Some cs
  | a :: w', c :: cs' => if Ascii.eqb a c then eat w' cs' else None
  | _ :: _, [] => None
  end.

Definition is_digit (c : ascii) : bool :=
  (48 <=? N_of_ascii c)%N && (N_of_ascii c <=? 57)%N.

Definition is_hex (c : ascii) : bool :=
  is_digit c
  || ((65 <=? N_of_ascii c)%N && (N_of_ascii c <=? 70)%N)
  || ((97 <=? N_of_ascii c)%N && (N_of_ascii c <=? 102)%N).

Definition is_escape (c : ascii) : bool :=
  existsb (Ascii.eqb c) (list_ascii_of_string "\/bfnrt") || Ascii.eqb c "034".

(** The characters of a string token after its opening quote, up to the
    closing one; [acc] holds them in reverse. *)
Fixpoint parse_string (cs acc : list ascii) : option (string * list ascii) :=
  match cs with
  | [] => None
  | c :: r =>
      if Ascii.eqb c "034" then Some (string_of_list_ascii (rev acc), r)
      else if Ascii.eqb c "\" then
        match r with
        | e :: r' =>
            if is_escape e then parse_string r' (e :: c :: acc)
            else if Ascii.eqb e "u" then
              match r' with
              | h1 :: h2 :: h3 :: h4 :: r'' =>
                  if is_hex h1 && is_hex h2 && is_hex h3 && is_hex h4
                  then parse_string r'' (h4 :: h3 :: h2 :: h1 :: e :: c :: acc)
                  else None
              | _ => None
              end
            else None
        | [] => None
        end
      else if (N_of_ascii c <? 32)%N then None
      else parse_string r (c :: acc)
  end.

Fixpoint span_digits (cs : list ascii) : list ascii * list ascii :=
  match cs with
  | c :: cs' =>
      if is_digit c then let '(ds, r) := span_digits cs' in (c :: ds, r)
      else ([], cs)
  | [] => ([], [])
  end.

(** One or more digits. *)
Definition digits1 (cs : list ascii) : option (list ascii * list ascii) :=
  match span_digits cs with
  | ([], _) => None
  | (ds, r) => Some (ds, r)
  end.

Definition parse_int (cs : list ascii) : option (list ascii * list ascii) :=
  match cs with
  | c :: r =>
      if Ascii.eqb c "0" then Some ([c], r)
      else if is_digit c then digits1 cs
      else None
  | [] => None
  end.

Definition parse_frac (cs : list ascii) : option (list ascii * list ascii) :=
  match cs with
  | c :: r =>
      if Ascii.eqb c "." then
        match digits1 r with
        | Some (ds, r') => Some (c :: ds, r')
        | None => None
        end
      else Some ([], cs)
  | [] => Some ([], [])
  end.

Definition parse_exp (cs : list ascii) : option (list ascii * list ascii) :=
  match cs with
  | c :: r =>
      if Ascii.eqb c "e" || Ascii.eqb c "E" then
        let '(sign, r1) :=
          match r with
          | s :: r1 =>
              if Ascii.eqb s "+" || Ascii.eqb s "-" then ([s], r1) else ([], r)
          | [] => ([], r)
          end in
        match digits1 r1 with
        | Some (ds, r') => Some (c :: sign ++ ds, r')
        | None => None
        end
      else Some ([], cs)
  | [] => Some ([], [])
  end.

Definition parse_number (cs : list ascii) : option (string * list ascii) :=
  let '(sign, r0) :=
    match cs with
    | c :: r => if Ascii.eqb c "-" then ([c], r) else ([], cs)
    | [] => ([], cs)
    end in
  match parse_int r0 with
  | Some (i, r1) =>
      match parse_frac r1 with
      | Some (f, r2) =>
          match parse_exp r2 with
          | Some (e, r3) =>
              Some (string_of_list_ascii (sign ++ i ++ f ++ e), r3)
          | None => None
          end
      | None => None
      end
  | None => None
  end.

(** Values, the elements of an array after its bracket and the members
    of an object after its brace.  The fuel bounds the depth of the
    calls; the length of the text is enough, every call consuming a
    character before it calls again. *)
Fixpoint parse_value (fuel : nat) (cs : list ascii)
    : option (json * list ascii) :=
  match fuel with
  | O => None
  | S fuel' =>
      match skip_ws cs with
      | [] => None
      | c :: r =>
          if Ascii.eqb c "n" then
            option_map (pair JNull) (eat (list_ascii_of_string "ull") r)
          else if Ascii.eqb c "t" then
            option_map (pair (JBool true)) (eat (list_ascii_of_string "rue") r)
          else if Ascii.eqb c "f" then
            option_map (pair (JBool false)) (eat (list_ascii_of_string "alse") r)
          else if Ascii.eqb c "034" then
            match parse_string r [] with
            | Some (s, r') => Some (JString s, r')
            | None => None
            end
          else if Ascii.eqb c "[" then
            match skip_ws r with
            | c' :: r' =>
                if Ascii.eqb c' "]" then Some (JArray [], r')
                else parse_elements fuel' r []
            | [] => None
            end
          else if Ascii.eqb c "{" then
            match skip_ws r with
            | c' :: r' =>
                if Ascii.eqb c' "}" then Some (JObject [], r')
                else parse_members fuel' r []
            | [] => None
            end
          else
            match parse_number (c :: r) with
            | Some (n, r') => Some (JNumber n, r')
            | None => None
            end
      end
  end
with parse_elements (fuel : nat) (cs : list ascii) (acc : list json)
    : option (json * list ascii) :=
  match fuel with
  | O => None
  | S fuel' =>
      match parse_value fuel' cs with
      | Some (v, r) =>
          match skip_ws r with
          | c :: r' =>
              if Ascii.eqb c "," then parse_elements fuel' r' (v :: acc)
              else if Ascii.eqb c "]" then Some (JArray (rev (v :: acc)), r')
              else None
          | [] => None
          end
      | None => None
      end
  end
with parse_members (fuel : nat) (cs : list ascii)
    (acc : list (string * json)) : option (json * list ascii) :=
  match fuel with
  | O => None
  | S fuel' =>
      match skip_ws cs with
      | q :: r0 =>
          if Ascii.eqb q "034" then
            match parse_string r0 [] with
            | Some (k, r1) =>
                match skip_ws r1 with
                | colon :: r2 =>
                    if Ascii.eqb colon ":" then
                      match parse_value fuel' r2 with
                      | Some (v, r3) =>
                          match skip_ws r3 with
                          | c :: r4 =>
                              if Ascii.eqb c ","
                              then parse_members fuel' r4 ((k, v) :: acc)
                              else if Ascii.eqb c "}"
                              then Some (JObject (rev ((k, v) :: acc)), r4)
                              else None
                          | [] => None
                          end
                      | None => None
                      end
                    else None
                | [] => None
                end
            | None => None
            end
          else None
      | [] => None
      end
  end.

(** [JSON.parse]: the value of a JSON text, or [None] where the built-in
    throws a [SyntaxError]. *)
Definition parse (text : string) : option json :=
  let cs := list_ascii_of_string text in
  match parse_value (2 * length cs + 2) cs with
  | Some (v, r) =>
      match skip_ws r with
      | [] => Some v
      | _ :: _ => None
      end
  | None => None
  end.

End JSON.

(** ** services/geminiService.ts *)

Module GeminiService.
Import JSON.

(** What an [async] function settles to: a value or a thrown error. *)
Inductive exn :=
| Error (message : string)
| SyntaxError
| ServiceFailure (reason : string).

Inductive outcome (A : Type) :=
| Return (a : A)
| Throw (e : exn).
Arguments Return {A} a.
Arguments Throw {A} e.

(** The request of [transcribeAudioFile] (the prompt and the response
    schema are constants of the source) and the part of the response it
    reads: [response.text] is a string or [undefined]. *)
Record request := {
  model : string;
  data : string;
  mimeType : string;
}.

Record response := { text : option string }.

(** [!jsonText] *)
Definition falsy (jsonText : option string) : bool :=
  match jsonText with
  | None => true
  | Some s => String.eqb s ""
  end.

Section TranscribeAudioFile.
(** [process.env.API_KEY || ''], the service call
    [ai.models.generateContent] and [JSON.parse]. *)
Variable apiKey : string.
Variable generateContent : request -> outcome response.
Variable JSON_parse : string -> outcome json.

(** The body of the [try] block. *)
Definition transcribe_try (base64Data mimeType : string) : outcome json :=
  match generateContent {| model := "gemini-2.5-flash";
                           data := base64Data;
                           mimeType := mimeType |} with
  | Return response =>
      let jsonText := text response in
      if falsy jsonText then Return (JArray [])
      else JSON_parse (default "" jsonText)
  | Throw e => Throw e
  end.

(** [transcribeAudioFile]: what the promise settles to, and the lines
    written with [console.error]. *)
Definition transcribeAudioFile (base64Data mimeType : string)
    : outcome json * list string :=
  if String.eqb apiKey "" then (Throw (Error "API Key faltante."), [])
  else
    match transcribe_try base64Data mimeType with
    | Return v => (Return v, [])
    | Throw error =>
        (Throw error, ["Error en transcripción de archivo:"])
    end.
End TranscribeAudioFile.

(** The built-in [JSON.parse] as an outcome. *)
Definition JSON_parse (text : string) : outcome json :=
  match JSON.parse text with
  | Some v => Return v
  | None => Throw SyntaxError
  end.

(** The messages of the live session and the [onmessage] callback of
    [connectLiveSession]: the call of [onTranscription] it makes, if
    any. *)
Record transcription := { tx_text : option string }.

Record serverContent := {
  inputTranscription : option transcription;
  turnComplete : option bool;
}.

Record message := { content : option serverContent }.

Definition onmessage (msg : message) : option (string * bool) :=
  match content msg with
  | Some sc =>
      match inputTranscription sc with
      | Some inputTx =>
          match tx_text inputTx with
          | Some t =>
              if String.eqb t "" then None
              else Some (t, default false (turnComplete sc))
          | None => None
          end
      | None => None
      end
  | None => None
  end.

End GeminiService.

(** ** components/FileUploader.tsx *)

Module FileUploader.






End FileUploader.

(** ** components/LiveSession.tsx

    The component runs on one event loop: every callback (a click, the
    microphone grant, an audio frame, the settling of the session promise,
    a service callback, an animation frame) runs to completion, together
    with the promise reactions it triggers, before the next one starts.
    The model is a state and one transition per callback. *)

Module LiveSession.
Import Types AudioUtils.

(** The promise returned by [connectLiveSession].  While it is pending
    it holds the reactions registered by [sessionPromise.then(...)], one
    per audio frame, each with the [base64Data] its closure captured,
    oldest first. *)
Inductive promise :=
| Pending (reactions : list string)
| Fulfilled
| Rejected.

(** What one run of the body of [startSession] creates: the audio graph
    around its [ScriptProcessorNode], whose handler closes over its own
    [sessionPromise].  [closed] records the [onclose] callback. *)
Record capture := {
  processorConnected : bool;
  sessionPromise : promise;
  closed : bool;
}.

(** The calls made on objects outside the component, in order.  The
    numbers name the capture (or the animation frame request) the
    object belongs to. *)
Inductive effect :=
| SendRealtimeInput (k : nat) (mimeType data : string)
| SessionClose (k : nat)
| ProcessorDisconnect (k : nat)
| SourceDisconnect (k : nat)
| TrackStop (k : nat)
| AudioContextClose (k : nat)
| CancelAnimationFrame (id : nat)
| ConsoleError (message : string).

#[projections(primitive)] Record state := {
  (* React state of the component and of its parent *)
  isActive : bool;
  error : option string;
  transcripts : list TranscriptSegment;
  (* refs *)
  audioContextRef : option nat;
  mediaStreamRef : option nat;
  processorRef : option nat;
  sourceRef : option nat;
  sessionRef : option nat;
  canvasRef : bool;
  analyzerRef : option nat;
  animationFrameRef : option nat;
  (* the browser and the service *)
  captures : list capture;
  micRequests : nat;
  scheduledFrames : list nat;
  nextFrameId : nat;
  log : list effect;
}.

Definition initial : state := {|
  isActive := false; error := None; transcripts := [];
  audioContextRef := None; mediaStreamRef := None; processorRef := None;
  sourceRef := None; sessionRef := None; canvasRef := true;
  analyzerRef := None; animationFrameRef := None;
  captures := []; micRequests := 0; scheduledFrames := []; nextFrameId := 1;
  log := [];
|}.

(** Field updates. *)
Definition set_isActive (b : bool) (s : state) : state :=
  {| isActive := b; error := error s; transcripts := transcripts s;
     audioContextRef := audioContextRef s; mediaStreamRef := mediaStreamRef s;
     processorRef := processorRef s; sourceRef := sourceRef s;
     sessionRef := sessionRef s; canvasRef := canvasRef s;
     analyzerRef := analyzerRef s; animationFrameRef := animationFrameRef s;
     captures := captures s; micRequests := micRequests s;
     scheduledFrames := scheduledFrames s; nextFrameId := nextFrameId s;
     log := log s |}.

Definition set_error (e : option string) (s : state) : state :=
  {| isActive := isActive s; error := e; transcripts := transcripts s;
     audioContextRef := audioContextRef s; mediaStreamRef := mediaStreamRef s;
     processorRef := processorRef s; sourceRef := sourceRef s;
     sessionRef := sessionRef s; canvasRef := canvasRef s;
     analyzerRef := analyzerRef s; animationFrameRef := animationFrameRef s;
     captures := captures s; micRequests := micRequests s;
     scheduledFrames := scheduledFrames s; nextFrameId := nextFrameId s;
     log := log s |}.

Definition set_transcripts (t : list TranscriptSegment) (s : state) : state :=
  {| isActive := isActive s; error := error s; transcripts := t;
     audioContextRef := audioContextRef s; mediaStreamRef := mediaStreamRef s;
     processorRef := processorRef s; sourceRef := sourceRef s;
     sessionRef := sessionRef s; canvasRef := canvasRef s;
     analyzerRef := analyzerRef s; animationFrameRef := animationFrameRef s;
     captures := captures s; micRequests := micRequests s;
     scheduledFrames := scheduledFrames s; nextFrameId := nextFrameId s;
     log := log s |}.

Definition set_audioContextRef (r : option nat) (s : state) : state :=
  {| isActive := isActive s; error := error s; transcripts := transcripts s;
     audioContextRef := r; mediaStreamRef := mediaStreamRef s;
     processorRef := processorRef s; sourceRef := sourceRef s;
     sessionRef := sessionRef s; canvasRef := canvasRef s;
     analyzerRef := analyzerRef s; animationFrameRef := animationFrameRef s;
     captures := captures s; micRequests := micRequests s;
     scheduledFrames := scheduledFrames s; nextFrameId := nextFrameId s;
     log := log s |}.

Definition set_mediaStreamRef (r : option nat) (s : state) : state :=
  {| isActive := isActive s; error := error s; transcripts := transcripts s;
     audioContextRef := audioContextRef s; mediaStreamRef := r;
     processorRef := processorRef s; sourceRef := sourceRef s;
     sessionRef := sessionRef s; canvasRef := canvasRef s;
     analyzerRef := analyzerRef s; animationFrameRef := animationFrameRef s;
     captures := captures s; micRequests := micRequests s;
     scheduledFrames := scheduledFrames s; nextFrameId := nextFrameId s;
     log := log s |}.

Definition set_processorRef (r : option nat) (s : state) : state :=
  {| isActive := isActive s; error := error s; transcripts := transcripts s;
     audioContextRef := audioContextRef s; mediaStreamRef := mediaStreamRef s;
     processorRef := r; sourceRef := sourceRef s;
     sessionRef := sessionRef s; canvasRef := canvasRef s;
     analyzerRef := analyzerRef s; animationFrameRef := animationFrameRef s;
     captures := captures s; micRequests := micRequests s;
     scheduledFrames := scheduledFrames s; nextFrameId := nextFrameId s;
     log := log s |}.

Definition set_sourceRef (r : option nat) (s : state) : state :=
  {| isActive := isActive s; error := error s; transcripts := transcripts s;
     audioContextRef := audioContextRef s; mediaStreamRef := mediaStreamRef s;
     processorRef := processorRef s; sourceRef := r;
     sessionRef := sessionRef s; canvasRef := canvasRef s;
     analyzerRef := analyzerRef s; animationFrameRef := animationFrameRef s;
     captures := captures s; micRequests := micRequests s;
     scheduledFrames := scheduledFrames s; nextFrameId := nextFrameId s;
     log := log s |}.

Definition set_sessionRef (r : option nat) (s : state) : state :=
  {| isActive := isActive s; error := error s; transcripts := transcripts s;
     audioContextRef := audioContextRef s; mediaStreamRef := mediaStreamRef s;
     processorRef := processorRef s; sourceRef := sourceRef s;
     sessionRef := r; canvasRef := canvasRef s;
     analyzerRef := analyzerRef s; animationFrameRef := animationFrameRef s;
     captures := captures s; micRequests := micRequests s;
     scheduledFrames := scheduledFrames s; nextFrameId := nextFrameId s;
     log := log s |}.

Definition set_canvasRef (b : bool) (s : state) : state :=
  {| isActive := isActive s; error := error s; transcripts := transcripts s;
     audioContextRef := audioContextRef s; mediaStreamRef := mediaStreamRef s;
     processorRef := processorRef s; sourceRef := sourceRef s;
     sessionRef := sessionRef s; canvasRef := b;
     analyzerRef := analyzerRef s; animationFrameRef := animationFrameRef s;
     captures := captures s; micRequests := micRequests s;
     scheduledFrames := scheduledFrames s; nextFrameId := nextFrameId s;
     log := log s |}.

Definition set_analyzerRef (r : option nat) (s : state) : state :=
  {| isActive := isActive s; error := error s; transcripts := transcripts s;
     audioContextRef := audioContextRef s; mediaStreamRef := mediaStreamRef s;
     processorRef := processorRef s; sourceRef := sourceRef s;
     sessionRef := sessionRef s; canvasRef := canvasRef s;
     analyzerRef := r; animationFrameRef := animationFrameRef s;
     captures := captures s; micRequests := micRequests s;
     scheduledFrames := scheduledFrames s; nextFrameId := nextFrameId s;
     log := log s |}.

Definition set_animationFrameRef (r : option nat) (s : state) : state :=
  {| isActive := isActive s; error := error s; transcripts := transcripts s;
     audioContextRef := audioContextRef s; mediaStreamRef := mediaStreamRef s;
     processorRef := processorRef s; sourceRef := sourceRef s;
     sessionRef := sessionRef s; canvasRef := canvasRef s;
     analyzerRef := analyzerRef s; animationFrameRef := r;
     captures := captures s; micRequests := micRequests s;
     scheduledFrames := scheduledFrames s; nextFrameId := nextFrameId s;
     log := log s |}.

Definition set_captures (c : list capture) (s : state) : state :=
  {| isActive := isActive s; error := error s; transcripts := transcripts s;
     audioContextRef := audioContextRef s; mediaStreamRef := mediaStreamRef s;
     processorRef := processorRef s; sourceRef := sourceRef s;
     sessionRef := sessionRef s; canvasRef := canvasRef s;
     analyzerRef := analyzerRef s; animationFrameRef := animationFrameRef s;
     captures := c; micRequests := micRequests s;
     scheduledFrames := scheduledFrames s; nextFrameId := nextFrameId s;
     log := log s |}.

Definition set_micRequests (n : nat) (s : state) : state :=
  {| isActive := isActive s; error := error s; transcripts := transcripts s;
     audioContextRef := audioContextRef s; mediaStreamRef := mediaStreamRef s;
     processorRef := processorRef s; sourceRef := sourceRef s;
     sessionRef := sessionRef s; canvasRef := canvasRef s;
     analyzerRef := analyzerRef s; animationFrameRef := animationFrameRef s;
     captures := captures s; micRequests := n;
     scheduledFrames := scheduledFrames s; nextFrameId := nextFrameId s;
     log := log s |}.

Definition set_frames (scheduled : list nat) (next : nat) (s : state) : state :=
  {| isActive := isActive s; error := error s; transcripts := transcripts s;
     audioContextRef := audioContextRef s; mediaStreamRef := mediaStreamRef s;
     processorRef := processorRef s; sourceRef := sourceRef s;
     sessionRef := sessionRef s; canvasRef := canvasRef s;
     analyzerRef := analyzerRef s; animationFrameRef := animationFrameRef s;
     captures := captures s; micRequests := micRequests s;
     scheduledFrames := scheduled; nextFrameId := next;
     log := log s |}.

(** A call on an outside object is appended to the log. *)
Definition call (e : effect) (s : state) : state :=
  {| isActive := isActive s; error := error s; transcripts := transcripts s;
     audioContextRef := audioContextRef s; mediaStreamRef := mediaStreamRef s;
     processorRef := processorRef s; sourceRef := sourceRef s;
     sessionRef := sessionRef s; canvasRef := canvasRef s;
     analyzerRef := analyzerRef s; animationFrameRef := animationFrameRef s;
     captures := captures s; micRequests := micRequests s;
     scheduledFrames := scheduledFrames s; nextFrameId := nextFrameId s;
     log := log s ++ [e] |}.

(** A change to capture [k] (none when there is no such capture). *)
Definition update_capture (k : nat) (f : capture -> capture) (s : state)
    : state :=
  set_captures (alter f k (captures s)) s.

Definition disconnect (c : capture) : capture :=
  {| processorConnected := false; sessionPromise := sessionPromise c;
     closed := closed c |}.

Definition settle (p : promise) (c : capture) : capture :=
  {| processorConnected := processorConnected c; sessionPromise := p;
     closed := closed c |}.

Definition mark_closed (c : capture) : capture :=
  {| processorConnected := processorConnected c;
     sessionPromise := sessionPromise c; closed := true |}.

(** [stopSession]: after [setIsActive(false)], one guarded release per
    ref, in the order of the source.  The session ref is only cleared
    (the source calls nothing on the session), and the animation frame
    ref is not cleared after the request is cancelled. *)
Definition release_processor (s : state) : state :=
  match processorRef s with
  | Some k =>
      set_processorRef None
        (update_capture k disconnect (call (ProcessorDisconnect k) s))
  | None => s
  end.

Definition release_source (s : state) : state :=
  match sourceRef s with
  | Some k => set_sourceRef None (call (SourceDisconnect k) s)
  | None => s
  end.

Definition release_stream (s : state) : state :=
  match mediaStreamRef s with
  | Some k => set_mediaStreamRef None (call (TrackStop k) s)
  | None => s
  end.

Definition release_context (s : state) : state :=
  match audioContextRef s with
  | Some k => set_audioContextRef None (call (AudioContextClose k) s)
  | None => s
  end.

Definition release_session (s : state) : state :=
  match sessionRef s with
  | Some _ => set_sessionRef None s
  | None => s
  end.

Definition cancel_animation (s : state) : state :=
  match animationFrameRef s with
  | Some id =>
      if (id =? 0)%nat then s
      else
        set_frames
          (List.filter (fun i => negb (i =? id)%nat) (scheduledFrames s))
          (nextFrameId s) (call (CancelAnimationFrame id) s)
  | None => s
  end.

Definition stopSession (s : state) : state :=
  cancel_animation
    (release_session
       (release_context
          (release_stream
             (release_source
                (release_processor (set_isActive false s)))))).

(** [draw], the callback of the visualizer: it schedules itself again
    and records the request in [animationFrameRef].  (The painting is
    not modelled.) *)
Definition draw (s : state) : state :=
  let id := nextFrameId s in
  set_animationFrameRef (Some id)
    (set_frames (scheduledFrames s ++ [id]) (S id) s).

Definition is_some {A : Type} (r : option A) : bool :=
  match r with Some _ => true | None => false end.

(** [drawVisualizer]: nothing without the canvas or the analyser. *)
Definition drawVisualizer (s : state) : state :=
  if negb (canvasRef s) || negb (is_some (analyzerRef s))
  then s
  else draw s.

(** The reaction [session => { sessionRef.current = session;
    session.sendRealtimeInput({media: ...}) }] of capture [k]. *)
Definition send (k : nat) (base64Data : string) (s : state) : state :=
  call (SendRealtimeInput k "audio/pcm;rate=16000" base64Data)
    (set_sessionRef (Some k) s).

(** The rejection handler [e => console.error("Session not ready", e)]. *)
Definition not_ready (s : state) : state :=
  call (ConsoleError "Session not ready") s.

(** [processor.onaudioprocess] of capture [k], whose promise is [p]:
    the frame is converted and encoded, and a reaction is attached to
    the promise; on a settled promise the reaction runs at once. *)
Definition encode (inputData : Float32Array) : string :=
  let pcmData := float32ToInt16 inputData in
  arrayBufferToBase64 (buffer pcmData).

Definition onaudioprocess (k : nat) (p : promise)
    (inputData : Float32Array) (s : state) : state :=
  let base64Data := encode inputData in
  match p with
  | Pending reactions =>
      update_capture k (settle (Pending (reactions ++ [base64Data]))) s
  | Fulfilled => send k base64Data s
  | Rejected => not_ready s
  end.

Section Component.
(** [process.env.API_KEY || ''] of the service module. *)
Variable apiKey : string.

(** [startSession] up to its first [await]. *)
Definition startSession (s : state) : state :=
  set_micRequests (S (micRequests s)) (set_error None s).

(** [startSession] from the moment [getUserMedia] resolves to the end
    of the [try] block.  [connectLiveSession] rejects at once without
    an API key and is pending otherwise. *)
Definition startSession_granted (s : state) : state :=
  let k := length (captures s) in
  let s := set_mediaStreamRef (Some k) s in
  let s := set_audioContextRef (Some k) s in
  let s := set_sourceRef (Some k) s in
  let s := set_analyzerRef (Some k) s in
  let s := set_processorRef (Some k) s in
  let p := if String.eqb apiKey "" then Rejected else Pending [] in
  let s :=
    set_captures
      (captures s ++ [{| processorConnected := true;
                         sessionPromise := p; closed := false |}]) s in
  drawVisualizer s.

(** The [catch] block of [startSession]. *)
Definition startSession_denied (s : state) : state :=
  set_error (Some "No se pudo acceder al micrófono o conectar.")
    (call (ConsoleError "getUserMedia") s).

(** The callbacks the component hands to [connectLiveSession]. *)
Definition onOpen (s : state) : state := set_isActive true s.
Definition onClose (s : state) : state := set_isActive false s.
Definition onError (s : state) : state :=
  stopSession
    (set_error (Some "Error de conexión con la API en vivo.")
       (call (ConsoleError "Live API Error:") s)).

(** [(text, isFinal) => onTranscriptionUpdate(text)], with the parent's
    [handleLiveUpdate] as [onTranscriptionUpdate]. *)
Definition onTranscription (now : string) (ev : string * bool)
    (s : state) : state :=
  set_transcripts (App.handleLiveUpdate now (fst ev) (transcripts s)) s.

(** The callbacks the event loop can run. *)
Inductive event :=
| Click
| Unmount
| MicGranted
| MicDenied
| AudioProcess (k : nat) (inputData : Float32Array)
| SessionOpened (k : nat)
| SessionFailed (k : nat)
| SessionError (k : nat)
| SessionClosed (k : nat)
| Message (k : nat) (msg : GeminiService.message) (now : string)
| AnimationFrame (id : nat).

Definition step (s : state) (ev : event) : state :=
  match ev with
  | Click => if isActive s then stopSession s else startSession s
  | Unmount => stopSession (set_canvasRef false s)
  | MicGranted =>
      match micRequests s with
      | S n => startSession_granted (set_micRequests n s)
      | O => s
      end
  | MicDenied =>
      match micRequests s with
      | S n => startSession_denied (set_micRequests n s)
      | O => s
      end
  | AudioProcess k inputData =>
      match captures s !! k with
      | Some c =>
          if processorConnected c
          then onaudioprocess k (sessionPromise c) inputData s
          else s
      | None => s
      end
  | SessionOpened k =>
      match captures s !! k with
      | Some c =>
          match sessionPromise c with
          | Pending reactions =>
              fold_left (fun s base64Data => send k base64Data s) reactions
                (update_capture k (settle Fulfilled) (onOpen s))
          | _ => s
          end
      | None => s
      end
  | SessionFailed k =>
      match captures s !! k with
      | Some c =>
          match sessionPromise c with
          | Pending reactions =>
              fold_left (fun s _ => not_ready s) reactions
                (update_capture k (settle Rejected) s)
          | _ => s
          end
      | None => s
      end
  | SessionError k =>
      match captures s !! k with
      | Some _ => onError s
      | None => s
      end
  | SessionClosed k =>
      match captures s !! k with
      | Some _ => update_capture k mark_closed (onClose s)
      | None => s
      end
  | Message k msg now =>
      match captures s !! k with
      | Some c =>
          match sessionPromise c, GeminiService.onmessage msg with
          | Fulfilled, Some ev => onTranscription now ev s
          | _, _ => s
          end
      | None => s
      end
  | AnimationFrame id =>
      if existsb (Nat.eqb id) (scheduledFrames s)
      then draw (set_frames
                   (List.filter (fun i => negb (i =? id)%nat) (scheduledFrames s))
                   (nextFrameId s) s)
      else s
  end.

Definition run (s : state) (trace : list event) : state :=
  fold_left step trace s.
End Component.

(** The frames handed to [sendRealtimeInput], in order, and the number
    of calls of [close] on a session. *)
Definition sent (s : state) : list string :=
  omap (fun e => match e with
                 | SendRealtimeInput _ _ d => Some d
                 | _ => None
                 end) (log s).

Definition close_calls (s : state) : nat :=
  length (List.filter
            (fun e => match e with SessionClose _ => true | _ => false end)
            (log s)).

(** The state of the session of a capture, in the words of the
    design. *)
Inductive SessionHandle := Connecting | Open | Closed | Failed.

Definition session_state (c : capture) : SessionHandle :=
  match sessionPromise c with
  | Pending _ => Connecting
  | Rejected => Failed
  | Fulfilled => if closed c then Closed else Open
  end.

End LiveSession.

(** ** Vocabulary of the statements *)

(** *** Samples and frames *)

(** The binary32 values -1, 0 and 1. *)
Definition f32_minus_one : spec_float := S754_finite true 8388608 (-23).
Definition f32_zero : spec_float := S754_zero false.
Definition f32_one : spec_float := S754_finite false 8388608 (-23).

(** A sample with an amplitude in [-1, 1]: a binary32 zero or finite
    value between the bounds. *)
Definition unit_amplitude (x : spec_float) : Prop :=
  Number.is_float32 x = true
  /\ match x with
     | S754_zero _ | S754_finite _ _ _ => True
     | _ => False
     end
  /\ (-1 <= Amplitude.F2Q x)%Q /\ (Amplitude.F2Q x <= 1)%Q.

(** The numerator and denominator of a magnitude. *)
Definition fnum (m : positive) (e : Z) : Z :=
  match e with Zneg _ => Zpos m | _ => Zpos m * 2 ^ e end.

Definition fden (e : Z) : positive :=
  match e with Zneg p => (2 ^ p)%positive | _ => 1%positive end.

(** Three frames of 4096 samples, as the processor delivers them: the
    constant amplitudes 1/4, 1/2 and -1/2. *)
Definition frame1 : AudioUtils.Float32Array :=
  replicate 4096 (S754_finite false 8388608 (-25)).
Definition frame2 : AudioUtils.Float32Array :=
  replicate 4096 (S754_finite false 8388608 (-24)).
Definition frame3 : AudioUtils.Float32Array :=
  replicate 4096 (S754_finite true 8388608 (-24)).

(** *** Bytes, 16-bit integers and Base64 groups *)

Definition is_byte (b : Z) : Prop := 0 <= b < 256.

Definition is_int16 (v : Z) : Prop := - 32768 <= v < 32768.

(** The integers [lo], [lo + 1], ..., [n] of them: a boolean property of
    a range is checked by running it on each. *)
Fixpoint range (lo : Z) (n : nat) : list Z :=
  match n with
  | O => []
  | S n' => lo :: range (lo + 1) n'
  end.

Definition is_digit_index (i : Z) : bool := (0 <=? i) && (i <? 64).

(** The four 6-bit groups of three bytes. *)
Definition group0 (b0 : Z) : Z := Z.shiftr b0 2.
Definition group1 (b0 b1 : Z) : Z :=
  Z.lor (Z.shiftl (Z.land b0 3) 4) (Z.shiftr b1 4).
Definition group2 (b1 b2 : Z) : Z :=
  Z.lor (Z.shiftl (Z.land b1 15) 2) (Z.shiftr b2 6).
Definition group3 (b2 : Z) : Z := Z.land b2 63.

(** The groups are alphabet positions and give the bytes back. *)
Definition groups_check (a b : Z) : bool :=
  is_digit_index (group0 a) && is_digit_index (group1 a b)
  && is_digit_index (group2 a b) && is_digit_index (group3 a)
  && (Z.lor (Z.shiftl (group0 a) 2) (Z.shiftr (group1 a b) 4) =? a)
  && (Z.land (group1 a b) 15 =? Z.shiftr b 4)
  && (Z.shiftr (group2 a b) 2 =? Z.land a 15)
  && (Z.lor (Z.shiftl (Z.shiftr b 4) 4) (Z.land b 15) =? b)
  && (Z.lor (Z.shiftl (Z.land (group2 a b) 3) 6) (group3 b) =? b).

(** *** Transcripts *)

(** The segment a live update creates, and a segment after an append. *)
Definition fresh (now text : string) : Types.TranscriptSegment :=
  {| Types.speaker := "En Vivo"; Types.gender := Types.Desconocido;
     Types.timestamp := now; Types.text := text |}.

Definition appended (last : Types.TranscriptSegment) (text : string)
    : Types.TranscriptSegment :=
  {| Types.speaker := Types.speaker last; Types.gender := Types.gender last;
     Types.timestamp := Types.timestamp last;
     Types.text := Types.text last +:+ text |}.

(** The transcript after a sequence of transcription events, each with
    the clock reading of its arrival, delivered through the callback of
    the live session. *)
Definition reconcile (events : list (string * (string * bool)))
    (transcript : list Types.TranscriptSegment)
    : list Types.TranscriptSegment :=
  fold_left
    (fun prev ev =>
       LiveSession.transcripts
         (LiveSession.onTranscription (fst ev) (snd ev)
            (LiveSession.set_transcripts prev LiveSession.initial)))
    events transcript.

(** The CSV format in its own words: a text field is the text between
    double quotes with each double quote of the text written twice; a row
    is the four fields between commas; the file is its lines, each ended
    by a newline. *)
Definition doubled (c : ascii) : list ascii :=
  if Ascii.eqb c App.quote then [App.quote; App.quote] else [c].

Definition csv_text_field (text : string) : string :=
  string_of_list_ascii
    ([App.quote] ++ flat_map doubled (list_ascii_of_string text) ++ [App.quote]).

Definition csv_row (t : Types.TranscriptSegment) : string :=
  Types.speaker t +:+ "," +:+ Types.gender_string (Types.gender t) +:+ ","
    +:+ Types.timestamp t +:+ "," +:+ csv_text_field (Types.text t).

Definition csv_lines (lines : list string) : string :=
  fold_right (fun line rest => line +:+ App.newline +:+ rest) "" lines.

(** *** The services *)

(** A service that answers every request with the response text
    [jsonText]. *)
Definition answering (jsonText : option string)
    : GeminiService.request -> GeminiService.outcome GeminiService.response :=
  fun _ => GeminiService.Return {| GeminiService.text := jsonText |}.

(** *** Traces of the live session *)

(** The start of a live session: the click on the button, then the grant
    of the microphone; and the frames a processor delivers. *)
Definition start : list LiveSession.event :=
  [LiveSession.Click; LiveSession.MicGranted].

Definition frames (k : nat) (fs : list AudioUtils.Float32Array)
    : list LiveSession.event :=
  map (LiveSession.AudioProcess k) fs.

Definition mime : string := "audio/pcm;rate=16000".

(** Capture [k] runs and its session promise is in state [p]. *)
Definition running (k : nat) (p : LiveSession.promise) (s : LiveSession.state)
    : Prop :=
  exists c, LiveSession.captures s !! k = Some c
            /\ LiveSession.processorConnected c = true
            /\ LiveSession.sessionPromise c = p.

(** The calls [stopSession] makes, read off the refs. *)
Definition release_calls (s : LiveSession.state) : list LiveSession.effect :=
  (match LiveSession.processorRef s with
   | Some k => [LiveSession.ProcessorDisconnect k] | None => [] end)
  ++ (match LiveSession.sourceRef s with
      | Some k => [LiveSession.SourceDisconnect k] | None => [] end)
  ++ (match LiveSession.mediaStreamRef s with
      | Some k => [LiveSession.TrackStop k] | None => [] end)
  ++ (match LiveSession.audioContextRef s with
      | Some k => [LiveSession.AudioContextClose k] | None => [] end)
  ++ (match LiveSession.animationFrameRef s with
      | Some id =>
          if (id =? 0)%nat then [] else [LiveSession.CancelAnimationFrame id]
      | None => []
      end).

Definition is_close (e : LiveSession.effect) : bool :=
  match e with LiveSession.SessionClose _ => true | _ => false end.

Definition closes (l : list LiveSession.effect) : list LiveSession.effect :=
  List.filter is_close l.

(** *** More vocabulary *)

(** The texts of a sequence of transcription events, joined. *)
Definition joined_text (events : list (string * (string * bool))) : string :=
  fold_right (fun ev rest => fst (snd ev) +:+ rest) "" events.

(** Reading a quoted CSV field back: the characters after the opening
    quote, a doubled quote standing for one, up to the closing quote,
    which must end the field. *)
Fixpoint unquote_body (cs : list ascii) : option (list ascii) :=
  match cs with
  | [] => None
  | c :: r =>
      if Ascii.eqb c App.quote then
        match r with
        | [] => Some []
        | c' :: r' =>
            if Ascii.eqb c' App.quote
            then option_map (cons App.quote) (unquote_body r')
            else None
        end
      else option_map (cons c) (unquote_body r)
  end.

Definition csv_unquote (field : string) : option string :=
  match list_ascii_of_string field with
  | q :: r =>
      if Ascii.eqb q App.quote
      then option_map string_of_list_ascii (unquote_body r)
      else None
  | [] => None
  end.


(** Two states of the live session that differ at most in the log of
    calls. *)
Definition same_but_log (a b : LiveSession.state) : Prop :=
  LiveSession.isActive a = LiveSession.isActive b
  /\ LiveSession.error a = LiveSession.error b
  /\ LiveSession.transcripts a = LiveSession.transcripts b
  /\ LiveSession.audioContextRef a = LiveSession.audioContextRef b
  /\ LiveSession.mediaStreamRef a = LiveSession.mediaStreamRef b
  /\ LiveSession.processorRef a = LiveSession.processorRef b
  /\ LiveSession.sourceRef a = LiveSession.sourceRef b
  /\ LiveSession.sessionRef a = LiveSession.sessionRef b
  /\ LiveSession.canvasRef a = LiveSession.canvasRef b
  /\ LiveSession.analyzerRef a = LiveSession.analyzerRef b
  /\ LiveSession.animationFrameRef a = LiveSession.animationFrameRef b
  /\ LiveSession.captures a = LiveSession.captures b
  /\ LiveSession.micRequests a = LiveSession.micRequests b
  /\ LiveSession.scheduledFrames a = LiveSession.scheduledFrames b
  /\ LiveSession.nextFrameId a = LiveSession.nextFrameId b.

(** The second call of [cancelAnimationFrame] a repeated stop makes. *)
Definition cancel_again (s : LiveSession.state) : list LiveSession.effect :=
  match LiveSession.animationFrameRef s with
  | Some id =>
      if (id =? 0)%nat then [] else [LiveSession.CancelAnimationFrame id]
  | None => []
  end.

(** The session promise of capture [k] is settled as [p]. *)
Definition settled_at (k : nat) (p : LiveSession.promise)
    (cs : list LiveSession.capture) : Prop :=
  (p = LiveSession.Fulfilled \/ p = LiveSession.Rejected)
  /\ exists c, cs !! k = Some c /\ LiveSession.sessionPromise c = p.

(** Every send in a log is tagged as 16 kHz PCM and goes to a capture
    whose session promise is fulfilled. *)
Definition to_open_session (cs : list LiveSession.capture)
    (e : LiveSession.effect) : Prop :=
  match e with
  | LiveSession.SendRealtimeInput k m _ =>
      m = mime /\ settled_at k LiveSession.Fulfilled cs
  | _ => True
  end.

Definition sends_to_open_sessions (s : LiveSession.state) : Prop :=
  Forall (to_open_session (LiveSession.captures s)) (LiveSession.log s).

(** How one callback may change the list of captures: not at all, in a
    field other than the promise, by settling or extending a pending
    promise, or by a new capture whose promise is [p0]. *)
Inductive captures_step (p0 : LiveSession.promise)
    (cs : list LiveSession.capture) : list LiveSession.capture -> Prop :=
| cs_same : captures_step p0 cs cs
| cs_keep (f : LiveSession.capture -> LiveSession.capture) (k : nat) :
    (forall c, LiveSession.sessionPromise (f c) = LiveSession.sessionPromise c) ->
    captures_step p0 cs (alter f k cs)
| cs_settle (p : LiveSession.promise) (k : nat) (c : LiveSession.capture)
    (rs : list string) :
    cs !! k = Some c ->
    LiveSession.sessionPromise c = LiveSession.Pending rs ->
    captures_step p0 cs (alter (LiveSession.settle p) k cs)
| cs_new (c : LiveSession.capture) :
    LiveSession.sessionPromise c = p0 ->
    captures_step p0 cs (cs ++ [c]).

(** The promise [connectLiveSession] returns: rejected at once without
    an API key, pending otherwise. *)
Definition connecting (apiKey : string) : LiveSession.promise :=
  if String.eqb apiKey "" then LiveSession.Rejected else LiveSession.Pending [].

(** Every capture's session promise is rejected. *)
Definition all_rejected (s : LiveSession.state) : Prop :=
  Forall (fun c => LiveSession.sessionPromise c = LiveSession.Rejected)
    (LiveSession.captures s).

(** * Proofs *)

Import Number AudioUtils Amplitude WireDecode Types.

(** ** Binary floats: digits, shifts and exact rounding *)

Section FloatFacts.

(** The number of binary digits of a positive is its [Z.log2] plus one. *)
Lemma digits2_log2 (p : positive) : Zpos (digits2_pos p) = Z.log2 (Zpos p) + 1.
Proof.
  induction p as [p IH|p IH|]; cbn [digits2_pos]; [| |reflexivity].
  - rewrite Pos2Z.inj_succ, IH.
    destruct p; cbn; lia.
  - rewrite Pos2Z.inj_succ, IH.
    destruct p; cbn; lia.
Qed.

Lemma digits2_bounds (p : positive) :
  2 ^ (Zpos (digits2_pos p) - 1) <= Zpos p < 2 ^ Zpos (digits2_pos p).
Proof.
  rewrite digits2_log2.
  replace (Z.log2 (Zpos p) + 1 - 1) with (Z.log2 (Zpos p)) by lia.
  replace (Z.log2 (Zpos p) + 1) with (Z.succ (Z.log2 (Zpos p))) by lia.
  apply Z.log2_spec. lia.
Qed.

Lemma digits2_unique (p : positive) (d : Z) :
  2 ^ (d - 1) <= Zpos p < 2 ^ d -> Zpos (digits2_pos p) = d.
Proof.
  intros [Hlo Hhi]. rewrite digits2_log2.
  assert (0 < d).
  { destruct (Z_lt_le_dec 0 d) as [|Hd]; [assumption|].
    assert (2 ^ d <= 2 ^ 0) by (apply Z.pow_le_mono_r; lia).
    change (2 ^ 0) with 1 in *. lia. }
  enough (Z.log2 (Zpos p) = d - 1) by lia.
  apply Z.log2_unique; [lia|].
  replace (Z.succ (d - 1)) with d by lia. lia.
Qed.

Lemma iter_xO_pow2 (m p : positive) :
  Zpos (Pos.iter xO m p) = Zpos m * 2 ^ Zpos p.
Proof.
  revert m. induction p as [|p IH] using Pos.peano_ind; intros m.
  - cbn. lia.
  - rewrite Pos.iter_succ, Pos2Z.inj_xO, IH, Pos2Z.inj_succ, Z.pow_succ_r by lia.
    lia.
Qed.

(** Shifting right an exact, even-enough mantissa stays exact. *)
Lemma shr_1_even (m : Z) :
  0 <= m -> shr_1 (Build_shr_record (2 * m) false false) = Build_shr_record m false false.
Proof. intros Hm. destruct m as [|p|p]; [reflexivity| |lia]. reflexivity. Qed.

Lemma pow2_xI (p : positive) : 2 ^ Zpos p~1 = 2 * (2 ^ Zpos p * 2 ^ Zpos p).
Proof. replace (Zpos p~1) with (1 + Zpos p + Zpos p) by lia.
  rewrite !Z.pow_add_r by lia. lia. Qed.

Lemma pow2_xO (p : positive) : 2 ^ Zpos p~0 = 2 ^ Zpos p * 2 ^ Zpos p.
Proof. replace (Zpos p~0) with (Zpos p + Zpos p) by lia.
  rewrite !Z.pow_add_r by lia. lia. Qed.

Lemma iter_pos_shr_1 (p : positive) (m : Z) :
  0 <= m ->
  SpecFloat.iter_pos shr_1 p (Build_shr_record (m * 2 ^ Zpos p) false false)
  = Build_shr_record m false false.
Proof.
  revert m. induction p as [p IH|p IH|]; intros m Hm; cbn [SpecFloat.iter_pos].
  - rewrite pow2_xI.
    replace (m * (2 * (2 ^ Zpos p * 2 ^ Zpos p)))
      with (2 * (m * 2 ^ Zpos p * 2 ^ Zpos p)) by lia.
    assert (0 < 2 ^ Zpos p) by lia.
    rewrite shr_1_even by nia. rewrite IH by nia. apply IH, Hm.
  - rewrite pow2_xO, Z.mul_assoc.
    assert (0 < 2 ^ Zpos p) by lia.
    rewrite IH by nia. apply IH, Hm.
  - change (2 ^ 1) with 2. rewrite Z.mul_comm. apply shr_1_even, Hm.
Qed.

(** Rounding an exact value whose excess digits are zero bits only
    shifts them out: [binary_round_aux] starting from [loc_Exact]. *)
Lemma shr_exact (m e n : Z) :
  0 <= m -> 0 <= n ->
  shr (Build_shr_record (m * 2 ^ n) false false) e n
  = (Build_shr_record m false false, e + n).
Proof.
  intros Hm Hn. destruct n as [|p|p]; [|cbn [shr]; rewrite iter_pos_shr_1 by lia; reflexivity|lia].
  cbn [shr]. rewrite Z.pow_0_r, Z.mul_1_r, Z.add_0_r. reflexivity.
Qed.

Lemma Zdigits2_mul_pow2 (m : positive) (n : Z) :
  0 <= n -> Zdigits2 (Zpos m * 2 ^ n) = Zpos (digits2_pos m) + n.
Proof.
  intros Hn. pose proof (digits2_bounds m) as [Hlo Hhi].
  assert (Hp : 0 < 2 ^ n) by lia.
  destruct (Zpos m * 2 ^ n) as [|q|q] eqn:Hq; [lia| |lia].
  cbn [Zdigits2]. apply digits2_unique. rewrite <- Hq.
  replace (Zpos (digits2_pos m) + n - 1) with (Zpos (digits2_pos m) - 1 + n) by lia.
  pose proof (digits2_log2 m). pose proof (Z.log2_nonneg (Zpos m)).
  rewrite !Z.pow_add_r by lia. nia.
Qed.

Lemma binary_round_aux_exact (s : bool) (a : positive) (j E : Z) :
  0 <= j ->
  Zpos (digits2_pos a) <= prec ->
  3 - emax - prec <= Zpos (digits2_pos a) + j + E - prec ->
  Zpos (digits2_pos a) + j + E <= emax ->
  E <= emax - prec ->
  let sh := Z.max 0 (Zpos (digits2_pos a) + j - prec) in
  binary_round_aux prec emax s (Zpos a * 2 ^ j) E loc_Exact
  = S754_finite s (Z.to_pos (Zpos a * 2 ^ (j - sh))) (E + sh).
Proof.
  intros Hj Hd Hlo Hhi HE sh. unfold binary_round_aux.
  assert (Hfexp : fexp prec emax (Zpos (digits2_pos a) + j + E) - E
                  = Zpos (digits2_pos a) + j - prec).
  { unfold fexp, emin. lia. }
  assert (Hsh : 0 <= sh <= j) by (unfold sh; lia).
  assert (H1 : shr_fexp prec emax (Zpos a * 2 ^ j) E loc_Exact
               = (Build_shr_record (Zpos a * 2 ^ (j - sh)) false false, E + sh)).
  { unfold shr_fexp. rewrite Zdigits2_mul_pow2, Hfexp by lia.
    cbn [shr_record_of_loc].
    destruct (Z_le_gt_dec (Zpos (digits2_pos a) + j - prec) 0) as [Hle|Hgt].
    - replace sh with 0 by (unfold sh; lia).
      rewrite Z.sub_0_r, Z.add_0_r.
      destruct (Zpos (digits2_pos a) + j - prec); [reflexivity|lia|reflexivity].
    - replace (Zpos (digits2_pos a) + j - prec) with sh by (unfold sh; lia).
      replace (Zpos a * 2 ^ j) with ((Zpos a * 2 ^ (j - sh)) * 2 ^ sh).
      2:{ rewrite <- Z.mul_assoc, <- Z.pow_add_r by lia. f_equal. f_equal. lia. }
      apply shr_exact; [|lia]. assert (0 < 2 ^ (j - sh)) by (apply Z.pow_pos_nonneg; lia). nia. }
  rewrite H1. cbn [shr_m loc_of_shr_record round_nearest_even].
  assert (H2 : shr_fexp prec emax (Zpos a * 2 ^ (j - sh)) (E + sh) loc_Exact
               = (Build_shr_record (Zpos a * 2 ^ (j - sh)) false false, E + sh)).
  { unfold shr_fexp. rewrite Zdigits2_mul_pow2 by lia.
    cbn [shr_record_of_loc].
    replace (fexp prec emax (Zpos (digits2_pos a) + (j - sh) + (E + sh)) - (E + sh))
      with (Zpos (digits2_pos a) + j - prec - sh) by (unfold fexp, emin; lia).
    destruct (Zpos (digits2_pos a) + j - prec - sh) eqn:Hz; [reflexivity| |reflexivity].
    unfold sh in Hz. lia. }
  rewrite H2. cbn [shr_m].
  assert (0 < 2 ^ (j - sh)) by (apply Z.pow_pos_nonneg; lia).
  destruct (Zpos a * 2 ^ (j - sh)) as [|q|q] eqn:Hq; [lia| |lia].
  replace (E + sh <=? emax - prec) with true; [reflexivity|].
  symmetry. apply Z.leb_le. unfold sh. lia.
Qed.

End FloatFacts.

Section Converter.

(** What validity of a binary32 mantissa/exponent pair gives. *)
Lemma bounded32_inv (m : positive) (e : Z) :
  bounded 24 128 m e = true ->
  Zpos (digits2_pos m) <= 24 /\ -149 <= e <= 104.
Proof.
  unfold bounded, canonical_mantissa, fexp, emin.
  intros [H1 H2]%andb_prop. apply Z.eqb_eq in H1. apply Z.leb_le in H2. lia.
Qed.

(** Reading a binary32 element gives the binary64 float of the same
    value: the mantissa is shifted up to 53 digits. *)
Lemma of_float32_finite (s : bool) (m : positive) (e : Z) :
  bounded 24 128 m e = true ->
  let d := Zpos (digits2_pos m) in
  of_float32 (S754_finite s m e)
  = S754_finite s (Z.to_pos (Zpos m * 2 ^ (53 - d))) (e + d - 53).
Proof.
  intros Hb d. apply bounded32_inv in Hb as [Hd He]. fold d in Hd.
  assert (0 < d) by (unfold d; lia).
  unfold of_float32, binary_round, shl_align.
  replace (fexp prec emax (Zpos (digits2_pos m) + e)) with (e + d - 53)
    by (unfold fexp, emin, prec, emax; fold d; lia).
  destruct (e + d - 53 - e) as [|q|q] eqn:Hq; [lia|lia|].
  rewrite iter_xO_pow2.
  rewrite (binary_round_aux_exact s m (Zpos q) (e + d - 53)); fold d; unfold prec, emax; try lia.
  replace (Z.max 0 (d + Zpos q - 53)) with 0 by lia.
  rewrite Z.sub_0_r, Z.add_0_r. replace (Zpos q) with (53 - d) by lia. reflexivity.
Qed.

Lemma cmp_not_lt (M c : positive) :
  Zpos c <= Zpos M -> PosDef.Pos.compare_cont Eq M c <> Lt.
Proof.
  intros H. change (Pos.compare M c <> Lt).
  destruct (Pos.compare_spec M c); [discriminate|lia|discriminate].
Qed.

Lemma cmp_not_gt (M c : positive) :
  Zpos c <= Zpos M -> PosDef.Pos.compare_cont Eq c M <> Gt.
Proof.
  intros H. change (Pos.compare c M <> Gt).
  destruct (Pos.compare_spec c M); [discriminate|discriminate|lia].
Qed.

(** The Number literals of [float32ToInt16]. *)
Lemma lit_0 : lit 0 = S754_zero false.
Proof. reflexivity. Qed.

Lemma lit_1 : lit 1 = S754_finite false 4503599627370496 (-52).
Proof. reflexivity. Qed.

Lemma lit_0x8000 : lit 0x8000 = S754_finite false 4503599627370496 (-37).
Proof. reflexivity. Qed.

Lemma lit_0x7FFF : lit 0x7FFF = S754_finite false 9006924376834048 (-38).
Proof. reflexivity. Qed.

(** Clamping a normal binary64 float: at magnitude 1 or more the result
    is the literal bound, below it the float itself. *)
Lemma clamp_finite (s : bool) (M : positive) (E : Z) :
  Zpos (digits2_pos M) = 53 ->
  clamp (S754_finite s M E)
  = if E <? -52 then S754_finite s M E
    else if s then neg (lit 1) else lit 1.
Proof.
  intros HM. pose proof (digits2_bounds M) as [Hlo _]. rewrite HM in Hlo.
  change (2 ^ (53 - 1)) with 4503599627370496 in Hlo.
  pose proof (cmp_not_lt M _ Hlo) as Hc1.
  pose proof (cmp_not_gt M _ Hlo) as Hc2.
  unfold clamp, Math_max, Math_min. rewrite lit_1.
  unfold Infinity, neg. cbn [SFopp negb].
  change (min_step (S754_infinity false) (S754_finite false 4503599627370496 (-52)))
    with (S754_finite false 4503599627370496 (-52)).
  change (max_step (S754_infinity true) (S754_finite true 4503599627370496 (-52)))
    with (S754_finite true 4503599627370496 (-52)).
  destruct (Z.ltb_spec E (-52)) as [HE|HE];
    destruct s; cbn [min_step max_step SFltb SFcompare].
  - destruct (Z.compare_spec (-52) E); try lia. reflexivity.
  - destruct (Z.compare_spec E (-52)); try lia. reflexivity.
  - destruct (Z.compare_spec (-52) E) as [Heq|Hlt|Hgt]; try lia; [|reflexivity].
    destruct (PosDef.Pos.compare_cont Eq 4503599627370496 M); try reflexivity.
    congruence.
  - destruct (Z.compare_spec E (-52)) as [Heq|Hlt|Hgt]; try lia; [|reflexivity].
    destruct (PosDef.Pos.compare_cont Eq M 4503599627370496); try reflexivity.
    congruence.
Qed.

Lemma truncate_neg_exp (s : bool) (P : positive) (E : Z) :
  E < 0 -> truncate (S754_finite s P E) = cond_Zopp s (Zpos P / 2 ^ (- E)).
Proof.
  intros HE. destruct E as [|p|p]; [lia|lia|].
  cbn [truncate]. rewrite Z.shiftr_div_pow2 by lia. reflexivity.
Qed.

Lemma digits2_le (a : positive) (n : Z) :
  0 <= n -> Zpos a < 2 ^ n -> Zpos (digits2_pos a) <= n.
Proof.
  intros Hn Ha. pose proof (digits2_bounds a) as [Hlo _].
  destruct (Z_le_gt_dec (Zpos (digits2_pos a)) n) as [|Hgt]; [assumption|].
  assert (2 ^ n <= 2 ^ (Zpos (digits2_pos a) - 1)) by (apply Z.pow_le_mono_r; lia).
  lia.
Qed.

(** The integer part of an exactly rounded product. *)
Lemma truncate_round_exact (s : bool) (a : positive) (j E : Z) :
  0 <= j ->
  Zpos (digits2_pos a) <= prec ->
  3 - emax - prec <= Zpos (digits2_pos a) + j + E - prec ->
  E + Z.max 0 (Zpos (digits2_pos a) + j - prec) < 0 ->
  truncate (binary_round_aux prec emax s (Zpos a * 2 ^ j) E loc_Exact)
  = cond_Zopp s ((Zpos a * 2 ^ j) / 2 ^ (- E)).
Proof.
  intros Hj Hd Hlo Hneg.
  rewrite binary_round_aux_exact by (unfold prec, emax in *; lia).
  set (sh := Z.max 0 (Zpos (digits2_pos a) + j - prec)) in *.
  assert (Hsh : 0 <= sh <= j) by (unfold sh; lia).
  rewrite truncate_neg_exp by lia.
  assert (0 < 2 ^ (j - sh)) by (apply Z.pow_pos_nonneg; lia).
  assert (0 < 2 ^ sh) by (apply Z.pow_pos_nonneg; lia).
  assert (0 < 2 ^ (- (E + sh))) by (apply Z.pow_pos_nonneg; lia).
  rewrite Z2Pos.id by nia.
  replace (Zpos a * 2 ^ j) with (Zpos a * 2 ^ (j - sh) * 2 ^ sh).
  2:{ rewrite <- Z.mul_assoc, <- Z.pow_add_r by lia. do 2 f_equal. lia. }
  replace (2 ^ (- E)) with (2 ^ (- (E + sh)) * 2 ^ sh).
  2:{ rewrite <- Z.pow_add_r by lia. f_equal. lia. }
  rewrite Z.div_mul_cancel_r by lia. reflexivity.
Qed.

Lemma ToInt16_truncate (x : float) :
  ToInt16 x = signed16 (truncate x mod 2 ^ 16).
Proof. destruct x; reflexivity. Qed.

Lemma signed16_mod_id (v : Z) :
  - 32768 <= v < 32768 -> signed16 (v mod 2 ^ 16) = v.
Proof.
  intros Hv. unfold signed16. change (2 ^ 16) with 65536. change (2 ^ 15) with 32768.
  destruct (Z.leb_spec 32768 (v mod 65536)); Z.div_mod_to_equations; lia.
Qed.

Lemma digits2_shift53 (m : positive) :
  Zpos (digits2_pos m) <= 53 ->
  Zpos (digits2_pos (Z.to_pos (Zpos m * 2 ^ (53 - Zpos (digits2_pos m))))) = 53.
Proof.
  intros Hd. pose proof (Zdigits2_mul_pow2 m (53 - Zpos (digits2_pos m))) as Hz.
  assert (0 < 2 ^ (53 - Zpos (digits2_pos m))) by (apply Z.pow_pos_nonneg; lia).
  destruct (Zpos m * 2 ^ (53 - Zpos (digits2_pos m))) as [|P|P] eqn:HP; [lia| |lia].
  cbn [Zdigits2 Z.to_pos] in *. rewrite Hz by lia. lia.
Qed.

(** A sample of magnitude 1 or more saturates. *)
Lemma sample_saturates (s : bool) (m : positive) (e : Z) :
  bounded 24 128 m e = true ->
  1 <= Zpos (digits2_pos m) + e ->
  sample_to_int16 (of_float32 (S754_finite s m e))
  = if s then - 32768 else 32767.
Proof.
  intros Hb Hbig. rewrite of_float32_finite by assumption.
  apply bounded32_inv in Hb as [Hd He].
  unfold sample_to_int16. rewrite clamp_finite by (apply digits2_shift53; lia).
  destruct (Z.ltb_spec (e + Zpos (digits2_pos m) - 53) (-52)); [lia|].
  destruct s; reflexivity.
Qed.

(** A sample of magnitude below 1 is scaled exactly and truncated. *)
Lemma sample_scaled (s : bool) (m : positive) (e : Z) :
  bounded 24 128 m e = true ->
  Zpos (digits2_pos m) + e <= 0 ->
  sample_to_int16 (of_float32 (S754_finite s m e))
  = cond_Zopp s ((Zpos m * (if s then 32768 else 32767)) / 2 ^ (- e)).
Proof.
  intros Hb Hsmall. rewrite of_float32_finite by assumption.
  apply bounded32_inv in Hb as [Hd He].
  set (d := Zpos (digits2_pos m)) in *.
  assert (Hd0 : 0 < d) by (unfold d; lia).
  pose proof (digits2_bounds m) as [_ Hm]. fold d in Hm.
  assert (Hpe : 2 ^ d <= 2 ^ (- e)) by (apply Z.pow_le_mono_r; lia).
  assert (Hpos : 0 < 2 ^ (53 - d)) by (apply Z.pow_pos_nonneg; lia).
  unfold sample_to_int16.
  rewrite clamp_finite by (apply digits2_shift53; fold d; lia).
  destruct (Z.ltb_spec (e + d - 53) (-52)); [|lia].
  remember (Z.to_pos (Zpos m * 2 ^ (53 - d))) as M eqn:HM.
  assert (HMz : Zpos M = Zpos m * 2 ^ (53 - d)) by (subst M; rewrite Z2Pos.id; nia).
  clear HM. rewrite ToInt16_truncate. unfold scale.
  replace (lt (S754_finite s M (e + d - 53)) (lit 0)) with s by (destruct s; reflexivity).
  destruct s.
  - rewrite lit_0x8000. unfold mul. cbn [SFmul xorb].
    rewrite Pos2Z.inj_mul, HMz. change (Zpos 4503599627370496) with (2 ^ 52).
    rewrite <- Z.mul_assoc, <- Z.pow_add_r by lia.
    rewrite truncate_round_exact; fold d; unfold prec, emax; try lia.
    replace (e + d - 53 + -37) with (- (- e + (90 - d))) by lia.
    rewrite Z.opp_involutive.
    replace (53 - d + 52) with (15 + (90 - d)) by lia.
    rewrite !Z.pow_add_r by lia. change (2 ^ 15) with 32768.
    rewrite Z.mul_assoc, Z.div_mul_cancel_r by lia.
    cbn [cond_Zopp]. apply signed16_mod_id.
    assert (0 < 2 ^ (- e)) by (apply Z.pow_pos_nonneg; lia).
    assert (0 <= Zpos m * 32768 / 2 ^ (- e) <= 32767); [|lia].
    split; [apply Z.div_pos; lia|].
    enough (Zpos m * 32768 / 2 ^ (- e) < 32768) by lia.
    apply Z.div_lt_upper_bound; nia.
  - rewrite lit_0x7FFF. unfold mul. cbn [SFmul xorb].
    rewrite Pos2Z.inj_mul, HMz.
    change (Zpos 9006924376834048) with (32767 * 2 ^ 38).
    replace (Zpos m * 2 ^ (53 - d) * (32767 * 2 ^ 38))
      with (Zpos (m * 32767) * 2 ^ (91 - d)).
    2:{ rewrite Pos2Z.inj_mul.
        replace (91 - d) with (53 - d + 38) by lia. rewrite Z.pow_add_r by lia. lia. }
    assert (Hda : Zpos (digits2_pos (m * 32767)) <= d + 15).
    { apply digits2_le; [lia|]. rewrite Pos2Z.inj_mul, Z.pow_add_r by lia.
      change (2 ^ 15) with 32768. nia. }
    rewrite truncate_round_exact; unfold prec, emax; try lia.
    replace (e + d - 53 + -38) with (- (- e + (91 - d))) by lia.
    rewrite Z.opp_involutive, Z.pow_add_r by lia.
    rewrite Z.div_mul_cancel_r by lia.
    cbn [cond_Zopp]. rewrite Pos2Z.inj_mul. apply signed16_mod_id.
    assert (0 < 2 ^ (- e)) by (apply Z.pow_pos_nonneg; lia).
    assert (0 <= Zpos m * 32767 / 2 ^ (- e) < 32767); [|lia].
    split; [apply Z.div_pos; lia|].
    apply Z.div_lt_upper_bound; nia.
Qed.
End Converter.

Section ConverterContract.

Lemma pos_pow2 (p : positive) : Zpos (2 ^ p) = 2 ^ Zpos p.
Proof. apply Pos2Z.inj_pow. Qed.

Lemma clamped_amplitude_large (s : bool) (m : positive) (e : Z) :
  1 <= Zpos (digits2_pos m) + e ->
  clamped_amplitude (S754_finite s m e) = if s then (-1)%Q else 1%Q.
Proof.
  intros Hbig. pose proof (digits2_bounds m) as [Hlo _].
  set (d := Zpos (digits2_pos m)) in *.
  unfold clamped_amplitude, clampQ, F2Q, Qle_bool.
  destruct e as [|q|q].
  - cbn [Qnum Qden inject_Z]. rewrite Z.pow_0_r.
    destruct s; cbn [cond_Zopp].
    + destruct (Z.leb_spec (1 * 1) (- (Zpos m * 1) * 1)); [lia|].
      destruct (Z.leb_spec (- (Zpos m * 1) * 1) (-1 * 1)); [reflexivity|lia].
    + destruct (Z.leb_spec (1 * 1) (Zpos m * 1 * 1)); [reflexivity|lia].
  - cbn [Qnum Qden inject_Z].
    assert (0 < 2 ^ Zpos q) by (apply Z.pow_pos_nonneg; lia).
    destruct s; cbn [cond_Zopp].
    + destruct (Z.leb_spec (1 * 1) (- (Zpos m * 2 ^ Zpos q) * 1)); [nia|].
      destruct (Z.leb_spec (- (Zpos m * 2 ^ Zpos q) * 1) (-1 * 1)); [reflexivity|nia].
    + destruct (Z.leb_spec (1 * 1) (Zpos m * 2 ^ Zpos q * 1)); [reflexivity|nia].
  - cbn [Qnum Qden]. rewrite pos_pow2.
    assert (2 ^ Zpos q <= 2 ^ (d - 1)) by (apply Z.pow_le_mono_r; lia).
    destruct s; cbn [cond_Zopp].
    + destruct (Z.leb_spec (1 * 2 ^ Zpos q) (- Zpos m * 1)); [lia|].
      destruct (Z.leb_spec (- Zpos m * 1) (-1 * 2 ^ Zpos q)); [reflexivity|lia].
    + destruct (Z.leb_spec (1 * 2 ^ Zpos q) (Zpos m * 1)); [reflexivity|lia].
Qed.

Lemma clamped_amplitude_small (s : bool) (m : positive) (e : Z) :
  Zpos (digits2_pos m) + e <= 0 ->
  Qtrunc (scaleQ (clamped_amplitude (S754_finite s m e)))
  = cond_Zopp s ((Zpos m * (if s then 32768 else 32767)) / 2 ^ (- e)).
Proof.
  intros Hsmall. pose proof (digits2_bounds m) as [_ Hhi].
  set (d := Zpos (digits2_pos m)) in *.
  assert (0 < d) by (unfold d; lia).
  destruct e as [|q|q]; [lia|lia|].
  assert (Hp : 2 ^ d <= 2 ^ Zpos q) by (apply Z.pow_le_mono_r; lia).
  assert (Hc : clamped_amplitude (S754_finite s m (Zneg q))
               = cond_Zopp s (Zpos m) # 2 ^ q).
  { unfold clamped_amplitude, clampQ, F2Q, Qle_bool. cbn [Qnum Qden].
    rewrite pos_pow2.
    destruct s; cbn [cond_Zopp].
    - destruct (Z.leb_spec (1 * 2 ^ Zpos q) (- Zpos m * 1)); [lia|].
      destruct (Z.leb_spec (- Zpos m * 1) (-1 * 2 ^ Zpos q)); [lia|reflexivity].
    - destruct (Z.leb_spec (1 * 2 ^ Zpos q) (Zpos m * 1)); [lia|].
      destruct (Z.leb_spec (Zpos m * 1) (-1 * 2 ^ Zpos q)); [lia|reflexivity]. }
  rewrite Hc. unfold scaleQ, Qle_bool, Qtrunc. cbn [Qnum Qden].
  change (- Zneg q) with (Zpos q).
  assert (0 < 2 ^ Zpos q) by (apply Z.pow_pos_nonneg; lia).
  destruct s; cbn [cond_Zopp].
  - destruct (Z.leb_spec (0 * Zpos (2 ^ q)) (- Zpos m * 1)); [lia|].
    cbn [Qmult Qnum Qden]. rewrite Pos.mul_1_r, pos_pow2.
    rewrite Z.mul_opp_l, Z.quot_opp_l, Z.quot_div_nonneg by lia. reflexivity.
  - destruct (Z.leb_spec (0 * Zpos (2 ^ q)) (Zpos m * 1)); [|lia].
    cbn [Qmult Qnum Qden]. rewrite Pos.mul_1_r, pos_pow2.
    rewrite Z.quot_div_nonneg by lia. reflexivity.
Qed.

(** The converter on one sample, against exact arithmetic. *)
Lemma sample_to_int16_exact (x : spec_float) :
  is_float32 x = true -> x <> S754_nan ->
  sample_to_int16 (of_float32 x) = Qtrunc (scaleQ (clamped_amplitude x)).
Proof.
  intros Hx Hnan. destruct x as [s|s| |s m e].
  - destruct s; reflexivity.
  - destruct s; reflexivity.
  - congruence.
  - unfold is_float32, valid_binary in Hx.
    destruct (Z_le_gt_dec 1 (Zpos (digits2_pos m) + e)) as [Hbig|Hsmall].
    + rewrite sample_saturates, clamped_amplitude_large by assumption.
      destruct s; reflexivity.
    + rewrite sample_scaled, clamped_amplitude_small by (assumption || lia).
      reflexivity.
Qed.

End ConverterContract.

Section Float32ToInt16.

(** The loop fills the array from the left: after it, the first [i]
    elements are as they were and the others are the converted samples. *)
Lemma float32ToInt16_loop_spec (a : Float32Array) (n i : nat) (out : Int16Array) :
  (i + n = length a)%nat -> length out = length a ->
  float32ToInt16_loop a n i out
  = take i out ++ map (fun x => sample_to_int16 (of_float32 x)) (drop i a).
Proof.
  revert i out. induction n as [|n IH]; intros i out Hin Hlen; cbn [float32ToInt16_loop].
  - rewrite take_ge, drop_ge by lia. cbn. rewrite app_nil_r. reflexivity.
  - destruct (lookup_lt_is_Some_2 a i) as [x Hx]; [lia|].
    rewrite IH by (rewrite ?length_insert; lia).
    unfold Float32Array_get. rewrite Hx.
    rewrite (take_S_r _ i (sample_to_int16 (of_float32 x)))
      by (apply list_lookup_insert_eq; lia).
    rewrite take_insert_ge by lia.
    rewrite (drop_S a x i Hx). cbn [map]. rewrite <- app_assoc. reflexivity.
Qed.

Lemma float32ToInt16_map (a : Float32Array) :
  float32ToInt16 a = map (fun x => sample_to_int16 (of_float32 x)) a.
Proof.
  unfold float32ToInt16.
  rewrite float32ToInt16_loop_spec by (rewrite ?length_replicate; lia).
  reflexivity.
Qed.

End Float32ToInt16.

(** C3. For every sample that is a number, [float32ToInt16] stores the
    clamped amplitude scaled by 32768 when it is negative and by 32767
    otherwise (the store keeps the integer part); the samples -1, 0 and 1
    give -32768, 0 and 32767. *)
Theorem float32ToInt16_clamps_and_scales (a : Float32Array) :
  Forall (fun x => is_float32 x = true /\ x <> S754_nan) a ->
  float32ToInt16 a = map (fun x => Qtrunc (scaleQ (clamped_amplitude x))) a
  /\ float32ToInt16 [f32_minus_one; f32_zero; f32_one] = [-32768; 0; 32767].
Proof.
  intros Ha. split; [|reflexivity].
  rewrite float32ToInt16_map. apply map_ext_in. intros x Hx.
  rewrite Forall_forall in Ha. destruct (Ha x) as [H32 Hnan].
  - apply list_elem_of_In, Hx.
  - apply sample_to_int16_exact; assumption.
Qed.

Lemma float32ToInt16_clamps_and_scales_witness :
  float32ToInt16 [f32_minus_one; f32_zero; f32_one]
  = map (fun x => Qtrunc (scaleQ (clamped_amplitude x)))
      [f32_minus_one; f32_zero; f32_one]
  /\ float32ToInt16 [f32_minus_one; f32_zero; f32_one] = [-32768; 0; 32767].
Proof.
  apply (float32ToInt16_clamps_and_scales [f32_minus_one; f32_zero; f32_one]).
  repeat constructor; discriminate.
Defined.

(** C9. [float32ToInt16] returns an array of the length of its input,
    whatever the input holds; the empty array gives the empty array. *)
Theorem float32ToInt16_length (a : Float32Array) :
  length (float32ToInt16 a) = length a /\ float32ToInt16 [] = [].
Proof.
  split; [|reflexivity]. rewrite float32ToInt16_map. apply length_map.
Qed.

(** ** Base64 and the byte layout *)

Section FiniteChecks.

Lemma forallb_range (P : Z -> bool) (lo : Z) (n : nat) :
  forallb P (range lo n) = true ->
  forall v, lo <= v < lo + Z.of_nat n -> P v = true.
Proof.
  revert lo. induction n as [|n IH]; intros lo Hall v Hv; [lia|].
  cbn [range forallb] in Hall. apply andb_prop in Hall as [Hlo Hrest].
  destruct (Z.eq_dec v lo) as [->|Hne]; [assumption|].
  apply (IH (lo + 1) Hrest). lia.
Qed.

Lemma forallb_byte (P : Z -> bool) :
  forallb P (range 0 256) = true -> forall b, is_byte b -> P b = true.
Proof. intros H b Hb. apply (forallb_range P 0 256 H). exact Hb. Qed.

Lemma forallb_byte2 (P : Z -> Z -> bool) :
  forallb (fun a => forallb (P a) (range 0 256)) (range 0 256) = true ->
  forall a b, is_byte a -> is_byte b -> P a b = true.
Proof.
  intros H a b Ha Hb.
  apply (forallb_byte (P a)); [|exact Hb].
  apply (forallb_byte (fun a => forallb (P a) (range 0 256)) H a Ha).
Qed.

End FiniteChecks.

Section Base64.

(** Every character of the alphabet decodes to its position and is not
    the padding character. *)
Lemma digit_value_digit (i : Z) :
  is_digit_index i = true ->
  digit_value (digit i) = Some i /\ is_pad (digit i) = false.
Proof.
  intros Hi. unfold is_digit_index in Hi. apply andb_prop in Hi as [H0 H1].
  apply Z.leb_le in H0. apply Z.ltb_lt in H1.
  assert (H : (match digit_value (digit i) with Some j => j =? i | None => false end)
              && negb (is_pad (digit i)) = true).
  { apply (forallb_range
             (fun i => (match digit_value (digit i) with
                        | Some j => j =? i | None => false end)
                       && negb (is_pad (digit i))) 0 64); [|lia].
    vm_compute. reflexivity. }
  apply andb_prop in H as [Hv Hp].
  destruct (digit_value (digit i)) as [j|]; [|discriminate].
  apply Z.eqb_eq in Hv. subst j. split; [reflexivity|].
  destruct (is_pad (digit i)); [discriminate|reflexivity].
Qed.

Lemma groups_ok (a b : Z) :
  is_byte a -> is_byte b ->
  is_digit_index (group0 a) = true
  /\ is_digit_index (group1 a b) = true
  /\ is_digit_index (group2 a b) = true
  /\ is_digit_index (group3 a) = true
  /\ Z.lor (Z.shiftl (group0 a) 2) (Z.shiftr (group1 a b) 4) = a
  /\ Z.land (group1 a b) 15 = Z.shiftr b 4
  /\ Z.shiftr (group2 a b) 2 = Z.land a 15
  /\ Z.lor (Z.shiftl (Z.shiftr b 4) 4) (Z.land b 15) = b
  /\ Z.lor (Z.shiftl (Z.land (group2 a b) 3) 6) (group3 b) = b.
Proof.
  intros Ha Hb.
  assert (H : groups_check a b = true).
  { apply forallb_byte2; [|assumption|assumption]. vm_compute. reflexivity. }
  unfold groups_check in H.
  do 8 (apply andb_prop in H as [H ?]).
  repeat match goal with Hx : (_ =? _) = true |- _ => apply Z.eqb_eq in Hx end.
  repeat split; assumption.
Qed.

Lemma is_byte_0 : is_byte 0.
Proof. unfold is_byte. lia. Qed.

(** Decoding the Base64 text of a byte sequence gives the bytes back. *)
Lemma base64_bytes_btoa_codes (bs : list Z) :
  Forall is_byte bs ->
  base64_bytes (list_ascii_of_string (btoa_codes bs)) = Some bs.
Proof.
  remember (length bs) as n eqn:Hn.
  assert (Hle : (length bs <= n)%nat) by lia. clear Hn.
  revert bs Hle. induction n as [|n IH]; intros bs Hle Hall.
  { destruct bs; [reflexivity|cbn in Hle; lia]. }
  destruct bs as [|b0 [|b1 [|b2 rest]]]; [reflexivity| | |].
  - apply Forall_cons in Hall as [Hb0 _].
    destruct (groups_ok b0 0 Hb0 is_byte_0) as (G0 & G1 & _ & _ & R0 & _).
    destruct (digit_value_digit _ G0) as [V0 _].
    destruct (digit_value_digit _ G1) as [V1 _].
    unfold group1 in V1, R0. change (Z.shiftr 0 4) with 0 in V1, R0.
    rewrite Z.lor_0_r in V1, R0. unfold group0 in V0, R0.
    cbn [btoa_codes list_ascii_of_string base64_bytes].
    rewrite V0, V1. change (is_pad "=") with true. cbn iota.
    rewrite R0. reflexivity.
  - apply Forall_cons in Hall as [Hb0 Hall]. apply Forall_cons in Hall as [Hb1 _].
    destruct (groups_ok b0 b1 Hb0 Hb1) as (G0 & G1 & _ & _ & R0 & L1 & _ & S1 & _).
    destruct (groups_ok b1 0 Hb1 is_byte_0) as (_ & _ & G2 & _ & _ & _ & H2 & _).
    destruct (digit_value_digit _ G0) as [V0 _].
    destruct (digit_value_digit _ G1) as [V1 _].
    destruct (digit_value_digit _ G2) as [V2 P2].
    unfold group2 in V2, P2, H2. change (Z.shiftr 0 6) with 0 in V2, P2, H2.
    rewrite Z.lor_0_r in V2, P2, H2. unfold group0, group1 in *.
    cbn [btoa_codes list_ascii_of_string base64_bytes].
    rewrite V0, V1, V2, P2. change (is_pad "=") with true. cbn iota.
    rewrite R0, L1, H2, S1. reflexivity.
  - apply Forall_cons in Hall as [Hb0 Hall]. apply Forall_cons in Hall as [Hb1 Hall].
    apply Forall_cons in Hall as [Hb2 Hall].
    destruct (groups_ok b0 b1 Hb0 Hb1) as (G0 & G1 & _ & _ & R0 & L1 & _ & S1 & _).
    destruct (groups_ok b1 b2 Hb1 Hb2) as (_ & _ & G2 & _ & _ & _ & H2 & _ & R2).
    destruct (groups_ok b2 0 Hb2 is_byte_0) as (_ & _ & _ & G3 & _).
    destruct (digit_value_digit _ G0) as [V0 _].
    destruct (digit_value_digit _ G1) as [V1 _].
    destruct (digit_value_digit _ G2) as [V2 _].
    destruct (digit_value_digit _ G3) as [V3 P3].
    unfold group0, group1, group2, group3 in *.
    cbn [btoa_codes list_ascii_of_string base64_bytes].
    rewrite V0, V1, V2, V3, P3.
    rewrite IH by (cbn in Hle; lia || assumption).
    rewrite R0, L1, H2, S1, R2. reflexivity.
Qed.
End Base64.

Section WireFormat.

Lemma charCode_fromCharCode (b : Z) : is_byte b -> charCode (fromCharCode b) = b.
Proof.
  intros Hb. unfold charCode, fromCharCode. rewrite N_ascii_embedding.
  - apply Z2N.id. unfold is_byte in Hb. lia.
  - unfold is_byte in Hb. lia.
Qed.

Lemma list_ascii_of_string_app (s t : string) :
  list_ascii_of_string (s +:+ t) = list_ascii_of_string s ++ list_ascii_of_string t.
Proof.
  induction s as [|c s IH]; [reflexivity|].
  simpl. f_equal. exact IH.
Qed.

(** The loop of [arrayBufferToBase64] appends the characters of the
    bytes from index [i] on. *)
Lemma arrayBufferToBase64_loop_spec (bytes : list Z) (n i : nat) (binary : string) :
  (i + n = length bytes)%nat ->
  list_ascii_of_string (arrayBufferToBase64_loop bytes n i binary)
  = list_ascii_of_string binary ++ map fromCharCode (drop i bytes).
Proof.
  revert i binary. induction n as [|n IH]; intros i binary Hin; cbn [arrayBufferToBase64_loop].
  - rewrite drop_ge by lia. cbn. rewrite app_nil_r. reflexivity.
  - destruct (lookup_lt_is_Some_2 bytes i) as [b Hb]; [lia|].
    rewrite IH by lia. rewrite Hb. cbn [default].
    rewrite list_ascii_of_string_app. cbn [list_ascii_of_string].
    rewrite (drop_S bytes b i Hb). cbn [map]. rewrite <- app_assoc. reflexivity.
Qed.

Lemma arrayBufferToBase64_btoa_codes (bytes : list Z) :
  Forall is_byte bytes -> arrayBufferToBase64 bytes = btoa_codes bytes.
Proof.
  intros Hall. unfold arrayBufferToBase64, btoa.
  rewrite arrayBufferToBase64_loop_spec by lia. rewrite drop_0.
  cbn [list_ascii_of_string app]. rewrite map_map. f_equal.
  induction Hall as [|b bs Hb _ IH]; cbn [map]; [reflexivity|]. cbn beta.
  rewrite charCode_fromCharCode, IH by assumption. reflexivity.
Qed.

Lemma int16_bytes (v : Z) :
  is_int16 v ->
  is_byte (Z.land v 255) /\ is_byte (Z.land (Z.shiftr v 8) 255)
  /\ signed16 (Z.lor (Z.land v 255) (Z.shiftl (Z.land (Z.shiftr v 8) 255) 8)) = v.
Proof.
  intros Hv.
  pose (P := fun v =>
    let lo := Z.land v 255 in
    let hi := Z.land (Z.shiftr v 8) 255 in
    (0 <=? lo) && (lo <? 256) && (0 <=? hi) && (hi <? 256)
    && (signed16 (Z.lor lo (Z.shiftl hi 8)) =? v)).
  assert (H : P v = true).
  { apply (forallb_range P (-32768) (Z.to_nat 65536)); [|unfold is_int16 in Hv; lia].
    vm_compute. reflexivity. }
  unfold P in H. cbv zeta in H.
  do 4 (apply andb_prop in H as [H ?]).
  unfold is_byte.
  repeat match goal with
         | Hx : (_ =? _) = true |- _ => apply Z.eqb_eq in Hx
         | Hx : (_ <=? _) = true |- _ => apply Z.leb_le in Hx
         | Hx : (_ <? _) = true |- _ => apply Z.ltb_lt in Hx
         end.
  repeat split; assumption.
Qed.

Lemma buffer_bytes (a : Int16Array) : Forall is_int16 a -> Forall is_byte (buffer a).
Proof.
  intros Ha. unfold buffer. induction Ha as [|v a Hv _ IH]; cbn [flat_map]; [constructor|].
  destruct (int16_bytes v Hv) as (Hlo & Hhi & _).
  simpl app. constructor; [assumption|]. constructor; assumption.
Qed.

Lemma int16s_buffer (a : Int16Array) : Forall is_int16 a -> int16s (buffer a) = Some a.
Proof.
  intros Ha. unfold buffer. induction Ha as [|v a Hv _ IH]; cbn [flat_map]; [reflexivity|].
  destruct (int16_bytes v Hv) as (_ & _ & Hs).
  cbn [app int16s]. fold (buffer a) in *. unfold buffer in *. rewrite IH, Hs. reflexivity.
Qed.

(** [ToInt16] lands in the 16-bit signed range, whatever the Number. *)
Lemma signed16_mod_range (v : Z) : is_int16 (signed16 (v mod 2 ^ 16)).
Proof.
  unfold is_int16, signed16. change (2 ^ 16) with 65536. change (2 ^ 15) with 32768.
  pose proof (Z.mod_pos_bound v 65536 ltac:(lia)).
  destruct (Z.leb_spec 32768 (v mod 65536)); lia.
Qed.

Lemma ToInt16_range (x : float) : is_int16 (ToInt16 x).
Proof. rewrite ToInt16_truncate. apply signed16_mod_range. Qed.

Lemma float32ToInt16_range (a : Float32Array) : Forall is_int16 (float32ToInt16 a).
Proof.
  rewrite float32ToInt16_map. apply Forall_map, Forall_forall. intros x _.
  apply ToInt16_range.
Qed.

(** Decoding an encoded frame gives back the integers of the
    [Int16Array]. *)
Lemma decode_int16_encode (a : Float32Array) :
  decode_int16 (LiveSession.encode a) = Some (float32ToInt16 a).
Proof.
  unfold decode_int16, LiveSession.encode.
  pose proof (float32ToInt16_range a) as Hr.
  rewrite arrayBufferToBase64_btoa_codes by (apply buffer_bytes, Hr).
  rewrite base64_bytes_btoa_codes by (apply buffer_bytes, Hr).
  apply int16s_buffer, Hr.
Qed.

End WireFormat.

(** ** The round trip through the wire format *)

Section RoundTrip.

(** Closeness of two fractions, on their numerators. *)
Lemma Qabs_diff_lt (a c : Z) (b d e : positive) :
  Z.abs (a * Zpos d - c * Zpos b) * Zpos e < Zpos b * Zpos d ->
  (Qabs ((a # b) - (c # d)) < 1 # e)%Q.
Proof.
  intros H. apply Qabs_Qlt_condition.
  unfold Qlt, Qminus, Qplus, Qopp. cbn [Qnum Qden].
  rewrite !Pos2Z.inj_mul.
  replace (a * Zpos d + - c * Zpos b) with (a * Zpos d - c * Zpos b) by ring.
  set (X := a * Zpos d - c * Zpos b) in *.
  destruct (Z.abs_spec X) as [[HX Habs]|[HX Habs]]; rewrite Habs in H; split; nia.
Qed.

Lemma decode_error_small (s : bool) (m p : positive) :
  Zpos m < 2 ^ Zpos p ->
  let n := cond_Zopp s ((Zpos m * (if s then 32768 else 32767)) / 2 ^ Zpos p) in
  (Qabs ((cond_Zopp s (Zpos m) # 2 ^ p) - amplitude n) < quantization_step n)%Q.
Proof.
  intros Hm n. assert (Hp : 0 < 2 ^ Zpos p) by lia.
  destruct s; cbn [cond_Zopp] in *.
  - pose proof (Z.div_mod (Zpos m * 32768) (2 ^ Zpos p) ltac:(lia)) as Hdm.
    pose proof (Z.mod_pos_bound (Zpos m * 32768) (2 ^ Zpos p) Hp) as Hr.
    set (q := Zpos m * 32768 / 2 ^ Zpos p) in *.
    set (r := (Zpos m * 32768) mod 2 ^ Zpos p) in *.
    assert (0 <= q) by (apply Z.div_pos; lia).
    unfold amplitude, quantization_step, n.
    destruct (Z.ltb_spec (- q) 0).
    + apply Qabs_diff_lt. rewrite pos_pow2. lia.
    + assert (q = 0) by lia. apply Qabs_diff_lt. rewrite pos_pow2. lia.
  - pose proof (Z.div_mod (Zpos m * 32767) (2 ^ Zpos p) ltac:(lia)) as Hdm.
    pose proof (Z.mod_pos_bound (Zpos m * 32767) (2 ^ Zpos p) Hp) as Hr.
    set (q := Zpos m * 32767 / 2 ^ Zpos p) in *.
    set (r := (Zpos m * 32767) mod 2 ^ Zpos p) in *.
    assert (0 <= q) by (apply Z.div_pos; lia).
    unfold amplitude, quantization_step, n.
    destruct (Z.ltb_spec q 0); [lia|].
    apply Qabs_diff_lt. rewrite pos_pow2. lia.
Qed.

Lemma F2Q_finite (s : bool) (m : positive) (e : Z) :
  F2Q (S754_finite s m e) = cond_Zopp s (fnum m e) # fden e.
Proof. destruct e; reflexivity. Qed.

Lemma fnum_large (m : positive) (e : Z) :
  1 <= Zpos (digits2_pos m) + e -> Zpos (fden e) <= fnum m e.
Proof.
  intros Hbig. pose proof (digits2_bounds m) as [Hlo _].
  destruct e as [|q|q]; cbn [fnum fden].
  - lia.
  - assert (0 < 2 ^ Zpos q) by lia. nia.
  - rewrite pos_pow2.
    assert (2 ^ Zpos q <= 2 ^ (Zpos (digits2_pos m) - 1)) by (apply Z.pow_le_mono_r; lia).
    lia.
Qed.

(** One sample through the converter and back. *)
Lemma decode_error_sample (x : spec_float) :
  unit_amplitude x ->
  let n := sample_to_int16 (of_float32 x) in
  (Qabs (F2Q x - amplitude n) < quantization_step n)%Q.
Proof.
  intros (H32 & Hfin & Hlo & Hhi). destruct x as [s| | |s m e]; try contradiction.
  - destruct s; reflexivity.
  - unfold is_float32, valid_binary in H32.
    destruct (Z_le_gt_dec 1 (Zpos (digits2_pos m) + e)) as [Hbig|Hsmall].
    + cbv zeta. rewrite sample_saturates by assumption.
      pose proof (fnum_large m e Hbig) as Hge.
      rewrite F2Q_finite in *. unfold Qle in Hlo, Hhi. cbn [Qnum Qden] in Hlo, Hhi.
      destruct s; cbn [cond_Zopp] in *.
      * change (amplitude (-32768)) with (-32768 # 32768).
        change (quantization_step (-32768)) with (1 # 32768).
        apply Qabs_diff_lt. lia.
      * change (amplitude 32767) with (32767 # 32767).
        change (quantization_step 32767) with (1 # 32767).
        apply Qabs_diff_lt. lia.
    + cbv zeta. rewrite sample_scaled by (assumption || lia).
      pose proof (digits2_bounds m) as [_ Hm].
      destruct e as [|p|p]; [lia|lia|].
      change (- Zneg p) with (Zpos p). cbn [F2Q].
      apply decode_error_small.
      assert (2 ^ Zpos (digits2_pos m) <= 2 ^ Zpos p) by (apply Z.pow_le_mono_r; lia).
      lia.
Qed.

End RoundTrip.

(** C4. For every frame of samples with amplitudes in [-1, 1], decoding
    the encoded frame succeeds and gives, sample by sample, an amplitude
    within one quantization step of the original. *)
Theorem decode_encode_within_one_step (a : Float32Array) :
  Forall unit_amplitude a ->
  exists decoded,
    decode (LiveSession.encode a) = Some decoded
    /\ Forall2 (fun x y =>
                  (Qabs (F2Q x - y)
                   < quantization_step (sample_to_int16 (of_float32 x)))%Q)
         a decoded.
Proof.
  intros Ha. exists (map amplitude (float32ToInt16 a)). split.
  - unfold decode. rewrite decode_int16_encode. reflexivity.
  - rewrite float32ToInt16_map, map_map.
    induction Ha as [|x a Hx _ IH]; cbn [map]; constructor; [|exact IH].
    apply (decode_error_sample x Hx).
Qed.

Lemma unit_amplitude_bounds :
  unit_amplitude f32_minus_one /\ unit_amplitude f32_zero /\ unit_amplitude f32_one.
Proof.
  unfold unit_amplitude, Qle. cbn.
  repeat split; try reflexivity; try lia; exact I.
Qed.

Lemma decode_encode_within_one_step_witness :
  exists decoded,
    decode (LiveSession.encode [f32_minus_one; f32_zero; f32_one]) = Some decoded
    /\ Forall2 (fun x y =>
                  (Qabs (F2Q x - y)
                   < quantization_step (sample_to_int16 (of_float32 x)))%Q)
         [f32_minus_one; f32_zero; f32_one] decoded.
Proof.
  apply (decode_encode_within_one_step [f32_minus_one; f32_zero; f32_one]).
  destruct unit_amplitude_bounds as (H1 & H2 & H3).
  constructor; [exact H1|]. constructor; [exact H2|]. constructor; [exact H3|].
  constructor.
Defined.

(** ** The transcript reconciler *)

Section Reconciler.
Import App.

Lemma array_get_last {A : Type} (init : list A) (x : A) :
  array_get (init ++ [x]) (Z.of_nat (length (init ++ [x])) - 1) = Some x.
Proof.
  unfold array_get. rewrite length_app. cbn [length].
  destruct (Z.ltb_spec (Z.of_nat (length init + 1) - 1) 0); [lia|].
  replace (Z.to_nat (Z.of_nat (length init + 1) - 1)) with (length init) by lia.
  apply list_lookup_middle. reflexivity.
Qed.

Lemma handleLiveUpdate_nil (now text : string) :
  handleLiveUpdate now text [] = [fresh now text].
Proof. reflexivity. Qed.

Lemma handleLiveUpdate_append (now text : string)
    (init : list TranscriptSegment) (last : TranscriptSegment) :
  speaker last = "En Vivo" ->
  handleLiveUpdate now text (init ++ [last]) = init ++ [appended last text].
Proof.
  intros Hlive. unfold handleLiveUpdate. rewrite array_get_last.
  destruct (String.eqb_spec (speaker last) "En Vivo") as [_|Hne]; [|contradiction].
  rewrite length_app. cbn [length].
  replace (Z.to_nat (Z.of_nat (length init + 1) - 1)) with (length init + 0)%nat by lia.
  rewrite insert_app_r. reflexivity.
Qed.

Lemma handleLiveUpdate_extend (now text : string)
    (init : list TranscriptSegment) (last : TranscriptSegment) :
  speaker last <> "En Vivo" ->
  handleLiveUpdate now text (init ++ [last]) = init ++ [last; fresh now text].
Proof.
  intros Hother. unfold handleLiveUpdate. rewrite array_get_last.
  destruct (String.eqb_spec (speaker last) "En Vivo") as [Heq|_]; [contradiction|].
  rewrite <- app_assoc. reflexivity.
Qed.

(** Either a list is empty or it has a last element. *)
Lemma list_last_cases {A : Type} (l : list A) :
  l = [] \/ exists init x, l = init ++ [x].
Proof.
  destruct l as [|a l] using rev_ind; [left; reflexivity|right; eauto].
Qed.

End Reconciler.

(** C2. On a transcription event the reconciler appends the text to the
    last segment when that segment carries the live label, and otherwise
    extends the list by a segment with the live label, unknown gender,
    the clock reading and the text; the three events of the example give
    one segment with the text "Hola mundo hoy". *)
Theorem reconciler_appends_or_extends (now text : string) (isFinal : bool)
    (init : list TranscriptSegment) (last : TranscriptSegment) :
  (speaker last = "En Vivo" ->
   reconcile [(now, (text, isFinal))] (init ++ [last])
   = init ++ [appended last text])
  /\ (speaker last <> "En Vivo" ->
      reconcile [(now, (text, isFinal))] (init ++ [last])
      = init ++ [last; fresh now text])
  /\ reconcile [(now, (text, isFinal))] [] = [fresh now text]
  /\ forall t1 t2 t3,
       reconcile [(t1, ("Hola", false)); (t2, (" mundo", false));
                  (t3, (" hoy", true))] []
       = [fresh t1 "Hola mundo hoy"].
Proof.
  unfold reconcile. cbn [fold_left fst snd LiveSession.onTranscription
                         LiveSession.transcripts LiveSession.set_transcripts].
  split; [|split; [|split]].
  - apply handleLiveUpdate_append.
  - apply handleLiveUpdate_extend.
  - reflexivity.
  - intros t1 t2 t3. reflexivity.
Qed.

Lemma reconciler_appends_or_extends_witness :
  reconcile [("00:07", (" mundo", false))]
    ([] ++ [fresh "00:05" "Hola"])
  = [] ++ [appended (fresh "00:05" "Hola") " mundo"].
Proof.
  apply (reconciler_appends_or_extends "00:07" " mundo" false []
           (fresh "00:05" "Hola")).
  reflexivity.
Defined.

(** C10. A reconciler update leaves every segment but the last as it
    was; when it appends, the last segment keeps its speaker, gender and
    timestamp and its text grows by the incoming text; when it extends,
    the old segments, the last one included, are all unchanged. *)
Theorem reconciler_frame (now text : string) (prev : list TranscriptSegment) :
  let next := App.handleLiveUpdate now text prev in
  (forall i : nat, (i + 1 < length prev)%nat -> next !! i = prev !! i)
  /\ (forall l, last prev = Some l -> speaker l = "En Vivo" ->
      length next = length prev
      /\ exists l', last next = Some l'
           /\ speaker l' = speaker l /\ gender l' = gender l
           /\ timestamp l' = timestamp l
           /\ Types.text l' = Types.text l +:+ text)
  /\ ((last prev = None
       \/ exists l, last prev = Some l /\ speaker l <> "En Vivo") ->
      take (length prev) next = prev).
Proof.
  intros next. unfold next.
  destruct (list_last_cases prev) as [->|(init & l & ->)].
  - rewrite handleLiveUpdate_nil. split; [|split].
    + intros i Hi. cbn in Hi. lia.
    + intros l Hl. discriminate.
    + reflexivity.
  - rewrite last_snoc.
    destruct (String.string_dec (speaker l) "En Vivo") as [Hlive|Hother].
    + rewrite handleLiveUpdate_append by assumption. split; [|split].
      * intros i Hi. rewrite length_app in Hi. cbn in Hi.
        rewrite !lookup_app_l by lia. reflexivity.
      * intros l0 Hl0 _. injection Hl0 as <-. split.
        { rewrite !length_app. reflexivity. }
        exists (appended l text). rewrite last_snoc. repeat split.
      * intros [Hnone|(l0 & Hl0 & Hne)]; [discriminate|].
        injection Hl0 as <-. contradiction.
    + rewrite handleLiveUpdate_extend by assumption. split; [|split].
      * intros i Hi. rewrite length_app in Hi. cbn in Hi.
        rewrite !lookup_app_l by lia. reflexivity.
      * intros l0 Hl0 Hlive. injection Hl0 as <-. contradiction.
      * intros _.
        replace (init ++ [l; fresh now text]) with ((init ++ [l]) ++ [fresh now text])
          by (rewrite <- app_assoc; reflexivity).
        apply take_app_length.
Qed.

Lemma reconciler_frame_witness :
  let prev := [fresh "00:01" "a"; fresh "00:02" "b"] in
  App.handleLiveUpdate "00:03" "c" prev !! 0%nat = prev !! 0%nat.
Proof.
  intros prev.
  apply (proj1 (reconciler_frame "00:03" "c" prev) 0%nat).
  cbn. lia.
Defined.

(** ** The CSV export *)

Section CsvExport.
Import App.

Lemma append_cons (x : ascii) (a b : string) :
  String x a +:+ b = String x (a +:+ b).
Proof. reflexivity. Qed.

Lemma append_assoc (a b c : string) : (a +:+ b) +:+ c = a +:+ (b +:+ c).
Proof.
  induction a as [|x a IH]; [reflexivity|].
  rewrite !append_cons, IH. reflexivity.
Qed.

Lemma append_nil_r (a : string) : a +:+ "" = a.
Proof.
  induction a as [|x a IH]; [reflexivity|]. rewrite append_cons, IH. reflexivity.
Qed.

Lemma string_of_list_ascii_app (l1 l2 : list ascii) :
  string_of_list_ascii (l1 ++ l2)
  = string_of_list_ascii l1 +:+ string_of_list_ascii l2.
Proof.
  induction l1 as [|x l1 IH]; [reflexivity|].
  cbn [app string_of_list_ascii]. rewrite append_cons, IH. reflexivity.
Qed.

Lemma replace_quotes_doubled (s : string) :
  replace_quotes s = string_of_list_ascii (flat_map doubled (list_ascii_of_string s)).
Proof.
  induction s as [|c s IH]; [reflexivity|].
  cbn [replace_quotes list_ascii_of_string flat_map]. unfold doubled at 1.
  destruct (Ascii.eqb c quote); cbn [app string_of_list_ascii]; rewrite IH; reflexivity.
Qed.

Lemma safeText_field (t : TranscriptSegment) : safeText t = csv_text_field (text t).
Proof.
  unfold safeText, csv_text_field. rewrite replace_quotes_doubled.
  cbn [app string_of_list_ascii]. rewrite string_of_list_ascii_app. reflexivity.
Qed.

Lemma row_csv_row (t : TranscriptSegment) : row t = csv_row t +:+ newline.
Proof.
  unfold row, csv_row. rewrite safeText_field. rewrite !append_assoc. reflexivity.
Qed.

(** The loop of [handleExport] appends the rows in list order. *)
Lemma export_fold (ts : list TranscriptSegment) (content : string) :
  fold_left (fun content t => content +:+ row t) ts content
  = content +:+ csv_lines (map csv_row ts).
Proof.
  revert content. induction ts as [|t ts IH]; intros content; cbn [fold_left map csv_lines fold_right].
  - rewrite append_nil_r. reflexivity.
  - rewrite IH, row_csv_row, !append_assoc. reflexivity.
Qed.

End CsvExport.

(** C8. For a transcript that is not empty the export is the header line
    followed by one row per segment, in the order of the list; in a row
    the text stands between double quotes with its own double quotes
    doubled. *)
Theorem handleExport_csv (transcripts : list TranscriptSegment) :
  transcripts <> [] ->
  App.handleExport transcripts
  = Some (csv_lines ("Hablante,Género,Tiempo,Texto" :: map csv_row transcripts)).
Proof.
  intros Hne. unfold App.handleExport.
  destruct transcripts as [|t ts]; [contradiction|].
  cbn [length Nat.eqb]. rewrite export_fold. unfold App.header.
  cbn [csv_lines fold_right]. rewrite append_assoc. reflexivity.
Qed.

Lemma handleExport_csv_witness :
  App.handleExport [fresh "00:05" "Hola"]
  = Some (csv_lines ("Hablante,Género,Tiempo,Texto" :: map csv_row [fresh "00:05" "Hola"])).
Proof. apply handleExport_csv. discriminate. Defined.

(** ** The batch transcription call *)

Section TranscribeAudioFile.
Import JSON GeminiService.

Lemma falsy_spec (jsonText : option string) :
  falsy jsonText = true <-> jsonText = None \/ jsonText = Some "".
Proof.
  destruct jsonText as [s|]; cbn [falsy].
  - destruct (String.eqb_spec s ""); split; intros H; try discriminate.
    + right. subst s. reflexivity.
    + reflexivity.
    + destruct H as [H|H]; [discriminate|]. injection H as ->. contradiction.
  - split; auto.
Qed.

End TranscribeAudioFile.

(** C6, as the code has it.  With an API key and an answering service:
    an absent or empty response text gives the empty transcript; a text
    that is not empty and that [JSON.parse] refuses makes the call fail
    with the parser's error, after one line on the error console. *)
Theorem transcribeAudioFile_empty_or_malformed
    (apiKey : string)
    (generateContent : GeminiService.request -> GeminiService.outcome GeminiService.response)
    (JSON_parse : string -> GeminiService.outcome JSON.json)
    (base64Data mimeType : string) (response : GeminiService.response) :
  apiKey <> "" ->
  generateContent {| GeminiService.model := "gemini-2.5-flash";
                     GeminiService.data := base64Data;
                     GeminiService.mimeType := mimeType |}
  = GeminiService.Return response ->
  (GeminiService.text response = None \/ GeminiService.text response = Some "" ->
   GeminiService.transcribeAudioFile apiKey generateContent JSON_parse
     base64Data mimeType
   = (GeminiService.Return (JSON.JArray []), []))
  /\ (forall jsonText e,
        GeminiService.text response = Some jsonText -> jsonText <> "" ->
        JSON_parse jsonText = GeminiService.Throw e ->
        GeminiService.transcribeAudioFile apiKey generateContent JSON_parse
          base64Data mimeType
        = (GeminiService.Throw e, ["Error en transcripción de archivo:"])).
Proof.
  intros Hkey Hgen. unfold GeminiService.transcribeAudioFile, GeminiService.transcribe_try.
  destruct (String.eqb_spec apiKey "") as [|_]; [contradiction|].
  rewrite Hgen. split.
  - intros Hempty. apply falsy_spec in Hempty. rewrite Hempty. reflexivity.
  - intros jsonText e Htext Hne Hparse. rewrite Htext. cbn.
    destruct (String.eqb_spec jsonText "") as [|_]; [contradiction|].
    rewrite Hparse. reflexivity.
Qed.

Lemma transcribeAudioFile_empty_or_malformed_witness :
  GeminiService.transcribeAudioFile "key" (answering (Some "{"))
    GeminiService.JSON_parse "AAAA" "audio/mp4"
  = (GeminiService.Throw GeminiService.SyntaxError,
     ["Error en transcripción de archivo:"]).
Proof.
  apply (proj2 (transcribeAudioFile_empty_or_malformed "key" (answering (Some "{"))
                  GeminiService.JSON_parse "AAAA" "audio/mp4"
                  {| GeminiService.text := Some "{" |}
                  ltac:(discriminate) eq_refl) "{" GeminiService.SyntaxError).
  - reflexivity.
  - discriminate.
  - reflexivity.
Defined.

(** C6 fails as stated: a response text that is not JSON makes
    [transcribeAudioFile] fail with a [SyntaxError]; it does not give the
    empty transcript. *)
Lemma transcribeAudioFile_malformed_counterexample :
  fst (GeminiService.transcribeAudioFile "key" (answering (Some "{"))
         GeminiService.JSON_parse "AAAA" "audio/mp4")
  = GeminiService.Throw GeminiService.SyntaxError
  /\ fst (GeminiService.transcribeAudioFile "key" (answering (Some "{"))
            GeminiService.JSON_parse "AAAA" "audio/mp4")
     <> GeminiService.Return (JSON.JArray []).
Proof. split; [reflexivity|discriminate]. Qed.

(** ** The live session *)

(** Reduction of field reads over field updates. *)
Ltac fields :=
  cbn [LiveSession.set_isActive LiveSession.set_error LiveSession.set_transcripts LiveSession.set_audioContextRef
       LiveSession.set_mediaStreamRef LiveSession.set_processorRef LiveSession.set_sourceRef LiveSession.set_sessionRef
       LiveSession.set_canvasRef LiveSession.set_analyzerRef LiveSession.set_animationFrameRef LiveSession.set_captures
       LiveSession.set_micRequests LiveSession.set_frames LiveSession.call LiveSession.update_capture
       LiveSession.isActive LiveSession.error LiveSession.transcripts LiveSession.audioContextRef LiveSession.mediaStreamRef
       LiveSession.processorRef LiveSession.sourceRef LiveSession.sessionRef LiveSession.canvasRef LiveSession.analyzerRef
       LiveSession.animationFrameRef LiveSession.captures LiveSession.micRequests LiveSession.scheduledFrames LiveSession.nextFrameId
       LiveSession.log].

(** [stopSession] stage by stage, by cases on the refs of [s]. *)
Ltac stop_cases s :=
  unfold LiveSession.stopSession;
  unfold LiveSession.release_processor; fields; destruct (LiveSession.processorRef s) as [?|] eqn:?; fields;
  unfold LiveSession.release_source; fields; destruct (LiveSession.sourceRef s) as [?|] eqn:?; fields;
  unfold LiveSession.release_stream; fields; destruct (LiveSession.mediaStreamRef s) as [?|] eqn:?; fields;
  unfold LiveSession.release_context; fields; destruct (LiveSession.audioContextRef s) as [?|] eqn:?; fields;
  unfold LiveSession.release_session; fields; destruct (LiveSession.sessionRef s) as [?|] eqn:?; fields;
  unfold LiveSession.cancel_animation; fields;
  destruct (LiveSession.animationFrameRef s) as [[|?]|] eqn:?; fields;
  cbn [Nat.eqb].

Section LiveSessionFacts.
Import LiveSession.
Variable apiKey : string.

Lemma log_update_capture (k : nat) (f : capture -> capture) (s : state) :
  log (update_capture k f s) = log s.
Proof. reflexivity. Qed.

Lemma stopSession_log (s : state) :
  log (stopSession s) = log s ++ release_calls s.
Proof.
  unfold release_calls.
  stop_cases s; cbn; rewrite <- ?app_assoc, ?app_nil_r; reflexivity.
Qed.

(** After [stopSession] every ref it guards is empty, except the
    animation frame request, which it leaves in place. *)
Lemma stopSession_refs (s : state) :
  let s' := stopSession s in
  isActive s' = false /\ processorRef s' = None /\ sourceRef s' = None
  /\ mediaStreamRef s' = None /\ audioContextRef s' = None
  /\ sessionRef s' = None /\ animationFrameRef s' = animationFrameRef s.
Proof.
  cbv zeta. stop_cases s; cbn; repeat split; congruence.
Qed.

(** A frame captured while the promise is pending is kept as a
    reaction of the promise; nothing is sent and nothing is dropped. *)
Lemma frame_while_pending (k : nat) (rs : list string) (f : Float32Array) (s : state) :
  running k (Pending rs) s ->
  running k (Pending (rs ++ [encode f])) (step apiKey s (AudioProcess k f))
  /\ log (step apiKey s (AudioProcess k f)) = log s.
Proof.
  intros (c & Hc & Hon & Hp). cbn [step]. rewrite Hc, Hon.
  unfold onaudioprocess. rewrite Hp. split; [|reflexivity].
  exists (settle (Pending (rs ++ [encode f])) c).
  unfold update_capture. cbn [captures set_captures].
  rewrite list_lookup_alter_eq, Hc. cbn. repeat split. exact Hon.
Qed.

Lemma frames_while_pending (k : nat) (fs : list Float32Array) (rs : list string) (s : state) :
  running k (Pending rs) s ->
  running k (Pending (rs ++ map encode fs)) (run apiKey s (map (AudioProcess k) fs))
  /\ log (run apiKey s (map (AudioProcess k) fs)) = log s.
Proof.
  revert rs s. induction fs as [|f fs IH]; intros rs s Hrun; cbn [map run fold_left].
  - rewrite app_nil_r. split; [assumption|reflexivity].
  - destruct (frame_while_pending k rs f s Hrun) as [Hrun' Hlog].
    destruct (IH _ _ Hrun') as [Hrun'' Hlog'].
    unfold run in *. rewrite <- app_assoc in Hrun''. split; [exact Hrun''|].
    rewrite Hlog'. exact Hlog.
Qed.

Lemma fold_send (k : nat) (rs : list string) (s : state) :
  log (fold_left (fun s d => send k d s) rs s)
  = log s ++ map (SendRealtimeInput k mime) rs
  /\ captures (fold_left (fun s d => send k d s) rs s) = captures s.
Proof.
  revert s. induction rs as [|d rs IH]; intros s; cbn [fold_left map].
  - rewrite app_nil_r. split; reflexivity.
  - destruct (IH (send k d s)) as [Hlog Hcap]. rewrite Hlog, Hcap.
    cbn. rewrite <- app_assoc. split; reflexivity.
Qed.

(** When the promise resolves, the reactions run in the order they
    were registered: every frame held is sent. *)
Lemma session_opens (k : nat) (rs : list string) (s : state) :
  running k (Pending rs) s ->
  running k Fulfilled (step apiKey s (SessionOpened k))
  /\ log (step apiKey s (SessionOpened k))
     = log s ++ map (SendRealtimeInput k mime) rs.
Proof.
  intros (c & Hc & Hon & Hp). cbn [step]. rewrite Hc, Hp.
  destruct (fold_send k rs (update_capture k (settle Fulfilled) (onOpen s)))
    as [Hlog Hcap].
  split; [|exact Hlog].
  exists (settle Fulfilled c). rewrite Hcap.
  unfold update_capture. cbn [captures set_captures onOpen set_isActive].
  rewrite list_lookup_alter_eq, Hc. cbn. repeat split. exact Hon.
Qed.

(** On an open session a frame is sent as soon as it is captured. *)
Lemma frame_while_open (k : nat) (f : Float32Array) (s : state) :
  running k Fulfilled s ->
  running k Fulfilled (step apiKey s (AudioProcess k f))
  /\ log (step apiKey s (AudioProcess k f))
     = log s ++ [SendRealtimeInput k mime (encode f)].
Proof.
  intros (c & Hc & Hon & Hp). cbn [step]. rewrite Hc, Hon.
  unfold onaudioprocess. rewrite Hp. split; [|reflexivity].
  exists c. cbn. repeat split; assumption.
Qed.

Lemma frames_while_open (k : nat) (fs : list Float32Array) (s : state) :
  running k Fulfilled s ->
  running k Fulfilled (run apiKey s (map (AudioProcess k) fs))
  /\ log (run apiKey s (map (AudioProcess k) fs))
     = log s ++ map (SendRealtimeInput k mime) (map encode fs).
Proof.
  revert s. induction fs as [|f fs IH]; intros s Hrun; cbn [map run fold_left].
  - rewrite app_nil_r. split; [assumption|reflexivity].
  - destruct (frame_while_open k f s Hrun) as [Hrun' Hlog].
    destruct (IH _ Hrun') as [Hrun'' Hlog'].
    unfold run in *. split; [exact Hrun''|].
    rewrite Hlog', Hlog, <- app_assoc. reflexivity.
Qed.

(** If the promise rejects, the rejection handlers run: the frames held
    are dropped, each with a line on the error console. *)
Lemma fold_not_ready (rs : list string) (s : state) :
  log (fold_left (fun s (_ : string) => not_ready s) rs s)
  = log s ++ map (fun _ => ConsoleError "Session not ready") rs.
Proof.
  revert s. induction rs as [|d rs IH]; intros s; cbn [fold_left map].
  - rewrite app_nil_r. reflexivity.
  - rewrite IH. cbn. rewrite <- app_assoc. reflexivity.
Qed.

Lemma session_fails (k : nat) (rs : list string) (s : state) :
  running k (Pending rs) s ->
  log (step apiKey s (SessionFailed k))
  = log s ++ map (fun _ => ConsoleError "Session not ready") rs.
Proof.
  intros (c & Hc & Hon & Hp). cbn [step]. rewrite Hc, Hp.
  rewrite fold_not_ready. reflexivity.
Qed.

Lemma sent_sends (k : nat) (ds : list string) :
  omap (fun e => match e with
                 | SendRealtimeInput _ _ d => Some d
                 | _ => None
                 end) (map (SendRealtimeInput k mime) ds) = ds.
Proof. induction ds as [|d ds IH]; cbn; [reflexivity|]. rewrite IH. reflexivity. Qed.

Lemma run_app (s : state) (t1 t2 : list event) :
  run apiKey s (t1 ++ t2) = run apiKey (run apiKey s t1) t2.
Proof. apply fold_left_app. Qed.

(** From any state in which capture [k] runs with a pending promise:
    frames, then the opening, then frames. *)
Lemma sent_after_opening (k : nat) (rs : list string)
    (before after : list Float32Array) (s : state) :
  running k (Pending rs) s ->
  sent (run apiKey s (map (AudioProcess k) before ++ [SessionOpened k]
                      ++ map (AudioProcess k) after))
  = sent s ++ rs ++ map encode before ++ map encode after.
Proof.
  intros Hrun. rewrite !run_app.
  destruct (frames_while_pending k before rs s Hrun) as [H1 L1].
  set (s1 := run apiKey s (map (AudioProcess k) before)) in *.
  destruct (session_opens k _ s1 H1) as [H2 L2].
  change (run apiKey s1 [SessionOpened k]) with (step apiKey s1 (SessionOpened k)).
  set (s2 := step apiKey s1 (SessionOpened k)) in *.
  destruct (frames_while_open k after s2 H2) as [_ L3].
  unfold sent. rewrite L3, L2, L1, !omap_app, !sent_sends, <- !app_assoc.
  reflexivity.
Qed.

(** The state after the click on the start button and the grant of the
    microphone: one capture, running, its promise pending. *)
Lemma started (Hkey : apiKey <> "") :
  running 0 (Pending []) (run apiKey initial [Click; MicGranted])
  /\ log (run apiKey initial [Click; MicGranted]) = [].
Proof.
  cbn. destruct (String.eqb_spec apiKey "") as [|_]; [contradiction|].
  cbn. split; [|reflexivity]. eexists. repeat split.
Qed.
End LiveSessionFacts.

Section ClientNeverCloses.
Import LiveSession.
Variable apiKey : string.

Lemma closes_app (l1 l2 : list effect) : closes (l1 ++ l2) = closes l1 ++ closes l2.
Proof. apply List.filter_app. Qed.

Lemma closes_release_calls (s : state) : closes (release_calls s) = [].
Proof.
  unfold release_calls.
  destruct (processorRef s), (sourceRef s), (mediaStreamRef s),
    (audioContextRef s), (animationFrameRef s) as [[|?]|]; reflexivity.
Qed.

Lemma closes_sends (k : nat) (ds : list string) :
  closes (map (SendRealtimeInput k mime) ds) = [].
Proof. induction ds as [|d ds IH]; [reflexivity|exact IH]. Qed.

Lemma closes_not_ready (ds : list string) :
  closes (map (fun _ => ConsoleError "Session not ready") ds) = [].
Proof. induction ds as [|d ds IH]; [reflexivity|exact IH]. Qed.

(** No callback of the component calls [close] on a session. *)
Lemma step_closes (s : state) (ev : event) :
  closes (log (step apiKey s ev)) = closes (log s).
Proof.
  destruct ev as [| | | |k f|k|k|k|k|k msg now|id]; cbn [step].
  - destruct (isActive s); [|reflexivity].
    rewrite stopSession_log, closes_app, closes_release_calls, app_nil_r. reflexivity.
  - rewrite stopSession_log, closes_app, closes_release_calls, app_nil_r. reflexivity.
  - destruct (micRequests s); [reflexivity|].
    unfold startSession_granted, drawVisualizer. cbn.
    destruct (canvasRef s); reflexivity.
  - destruct (micRequests s); [reflexivity|]. cbn.
    rewrite closes_app. cbn. rewrite app_nil_r. reflexivity.
  - destruct (captures s !! k) as [c|]; [|reflexivity].
    destruct (processorConnected c); [|reflexivity].
    unfold onaudioprocess. destruct (sessionPromise c); cbn; try reflexivity;
      rewrite closes_app; cbn; rewrite app_nil_r; reflexivity.
  - destruct (captures s !! k) as [c|]; [|reflexivity].
    destruct (sessionPromise c) as [rs| |]; try reflexivity.
    destruct (fold_send k rs (update_capture k (settle Fulfilled) (onOpen s))) as [-> _].
    rewrite closes_app, closes_sends, app_nil_r. reflexivity.
  - destruct (captures s !! k) as [c|]; [|reflexivity].
    destruct (sessionPromise c) as [rs| |]; try reflexivity.
    rewrite fold_not_ready, closes_app, closes_not_ready, app_nil_r. reflexivity.
  - destruct (captures s !! k) as [c|]; [|reflexivity].
    unfold onError. rewrite stopSession_log, closes_app, closes_release_calls, app_nil_r.
    cbn. rewrite closes_app. cbn. rewrite app_nil_r. reflexivity.
  - destruct (captures s !! k) as [c|]; reflexivity.
  - destruct (captures s !! k) as [c|]; [|reflexivity].
    destruct (sessionPromise c), (GeminiService.onmessage msg); reflexivity.
  - destruct (existsb (Nat.eqb id) (scheduledFrames s)); reflexivity.
Qed.

Lemma run_closes (s : state) (trace : list event) :
  closes (log (run apiKey s trace)) = closes (log s).
Proof.
  revert s. induction trace as [|ev trace IH]; intros s; [reflexivity|].
  cbn [run fold_left]. fold (run apiKey (step apiKey s ev) trace).
  rewrite IH. apply step_closes.
Qed.

(** [stopSession] touches the captures only to stop the processor of
    the capture in [processorRef]. *)
Lemma stopSession_captures (s : state) :
  captures (stopSession s)
  = match processorRef s with
    | Some k => alter disconnect k (captures s)
    | None => captures s
    end.
Proof. stop_cases s; reflexivity. Qed.

Lemma sent_stopSession (s : state) : sent (stopSession s) = sent s.
Proof.
  unfold sent. rewrite stopSession_log, omap_app.
  replace (omap _ (release_calls s)) with (@nil string); [apply app_nil_r|].
  unfold release_calls.
  destruct (processorRef s), (sourceRef s), (mediaStreamRef s),
    (audioContextRef s), (animationFrameRef s) as [[|?]|]; reflexivity.
Qed.

End ClientNeverCloses.

Section FrameDelivery.
Import LiveSession.

Lemma sent_click (apiKey : string) (s : state) :
  sent (step apiKey s Click) = sent s.
Proof.
  cbn [step]. destruct (isActive s); [apply sent_stopSession|reflexivity].
Qed.

End FrameDelivery.

(** C1, as the code has it.  With an API key, the frames captured before
    the session promise settles are not sent while it is pending; they
    are held as reactions of the promise and are all sent, in capture
    order and ahead of the later frames, when the session opens; they are
    dropped only when the connection fails. *)
Theorem frames_before_open_sent_on_open (apiKey : string)
    (before after : list Float32Array) :
  apiKey <> "" ->
  LiveSession.sent
    (LiveSession.run apiKey LiveSession.initial (start ++ frames 0 before)) = []
  /\ LiveSession.sent
       (LiveSession.run apiKey LiveSession.initial
          (start ++ frames 0 before ++ [LiveSession.SessionOpened 0]
           ++ frames 0 after))
     = map LiveSession.encode before ++ map LiveSession.encode after
  /\ LiveSession.sent
       (LiveSession.run apiKey LiveSession.initial
          (start ++ frames 0 before ++ [LiveSession.SessionFailed 0])) = [].
Proof.
  intros Hkey. destruct (started apiKey Hkey) as [Hrun Hlog].
  fold start in Hrun, Hlog. unfold frames.
  rewrite !(run_app apiKey LiveSession.initial start).
  set (s0 := LiveSession.run apiKey LiveSession.initial start) in *.
  destruct (frames_while_pending apiKey 0 before [] s0 Hrun) as [Hrun1 Hlog1].
  split; [|split].
  - unfold LiveSession.sent. rewrite Hlog1, Hlog. reflexivity.
  - rewrite (sent_after_opening apiKey 0 [] before after s0 Hrun).
    unfold LiveSession.sent at 1. rewrite Hlog. reflexivity.
  - cbn [app] in Hrun1. rewrite run_app.
    change (LiveSession.run apiKey ?s [LiveSession.SessionFailed 0])
      with (LiveSession.step apiKey s (LiveSession.SessionFailed 0)).
    unfold LiveSession.sent.
    rewrite (session_fails apiKey 0 _ _ Hrun1), Hlog1, Hlog. cbn [app].
    clear Hrun1.
    induction (map LiveSession.encode before) as [|d ds IH]; [reflexivity|exact IH].
Qed.

Lemma frames_before_open_sent_on_open_witness :
  LiveSession.sent
    (LiveSession.run "key" LiveSession.initial
       (start ++ frames 0 [frame1] ++ [LiveSession.SessionOpened 0]
        ++ frames 0 [frame2; frame3]))
  = map LiveSession.encode [frame1] ++ map LiveSession.encode [frame2; frame3].
Proof.
  apply (frames_before_open_sent_on_open "key" [frame1] [frame2; frame3]).
  discriminate.
Defined.

(** C1 fails as stated: in the scenario (three frames, the session opening
    after the first, then stop) the first frame is sent too, so three
    frames are sent, not two. *)
Lemma scenario_sends_three_frames :
  let scenario :=
    start ++ frames 0 [frame1] ++ [LiveSession.SessionOpened 0]
    ++ frames 0 [frame2; frame3] ++ [LiveSession.Click] in
  LiveSession.sent (LiveSession.run "key" LiveSession.initial scenario)
  = [LiveSession.encode frame1; LiveSession.encode frame2; LiveSession.encode frame3]
  /\ length (LiveSession.sent (LiveSession.run "key" LiveSession.initial scenario)) = 3%nat
  /\ length (LiveSession.sent (LiveSession.run "key" LiveSession.initial scenario)) <> 2%nat.
Proof.
  intros scenario.
  assert (H : LiveSession.sent (LiveSession.run "key" LiveSession.initial scenario)
              = [LiveSession.encode frame1; LiveSession.encode frame2;
                 LiveSession.encode frame3]).
  { unfold scenario, frames. rewrite !app_assoc, run_app, <- !app_assoc.
    change (LiveSession.run "key" ?s [LiveSession.Click])
      with (LiveSession.step "key" s LiveSession.Click).
    rewrite sent_click.
    destruct (started "key" ltac:(discriminate)) as [Hrun Hlog]. fold start in Hrun, Hlog.
    rewrite (run_app "key" LiveSession.initial start).
    rewrite (sent_after_opening "key" 0 [] [frame1] [frame2; frame3] _ Hrun).
    unfold LiveSession.sent at 1. rewrite Hlog. reflexivity. }
  rewrite H. repeat split. discriminate.
Qed.

(** C5, as the code has it.  The client never calls [close] on a session,
    on any path: [stopSession] only clears its reference to the session,
    and a session whose opening resolves after a stop is left open. *)
Theorem session_never_closed_by_client (apiKey : string) :
  (forall trace,
     LiveSession.close_calls (LiveSession.run apiKey LiveSession.initial trace) = 0%nat)
  /\ (forall s,
        LiveSession.sessionRef (LiveSession.stopSession s) = None
        /\ LiveSession.close_calls (LiveSession.stopSession s)
           = LiveSession.close_calls s)
  /\ (forall s k c reactions,
        LiveSession.captures s !! k = Some c ->
        LiveSession.sessionPromise c = LiveSession.Pending reactions ->
        LiveSession.closed c = false ->
        LiveSession.session_state
          <$> LiveSession.captures
                (LiveSession.step apiKey (LiveSession.stopSession s)
                   (LiveSession.SessionOpened k)) !! k
        = Some LiveSession.Open).
Proof.
  split; [|split].
  - intros trace. unfold LiveSession.close_calls.
    change (List.filter _ ?l) with (closes l).
    rewrite run_closes. reflexivity.
  - intros s. split; [apply (stopSession_refs s)|].
    unfold LiveSession.close_calls.
    change (List.filter _ ?l) with (closes l).
    rewrite stopSession_log, closes_app, closes_release_calls, app_nil_r. reflexivity.
  - intros s k c rs Hc Hp Hclosed.
    assert (Hc' : exists c', LiveSession.captures (LiveSession.stopSession s) !! k = Some c'
                             /\ LiveSession.sessionPromise c' = LiveSession.Pending rs
                             /\ LiveSession.closed c' = false).
    { rewrite stopSession_captures. destruct (LiveSession.processorRef s) as [j|]; [|eauto].
      destruct (decide (j = k)) as [->|Hne].
      - rewrite list_lookup_alter_eq, Hc. cbn. eauto.
      - rewrite list_lookup_alter_ne by assumption. eauto. }
    destruct Hc' as (c' & Hc' & Hp' & Hclosed').
    cbn [LiveSession.step]. rewrite Hc', Hp'.
    destruct (fold_send k rs
                (LiveSession.update_capture k (LiveSession.settle LiveSession.Fulfilled)
                   (LiveSession.onOpen (LiveSession.stopSession s)))) as [_ ->].
    cbn [LiveSession.update_capture LiveSession.onOpen LiveSession.set_isActive
         LiveSession.set_captures LiveSession.captures].
    rewrite list_lookup_alter_eq, Hc'. cbn. unfold LiveSession.session_state. cbn.
    rewrite Hclosed'. reflexivity.
Qed.

Lemma session_never_closed_by_client_witness :
  LiveSession.session_state
    <$> LiveSession.captures
          (LiveSession.step "key"
             (LiveSession.stopSession
                (LiveSession.run "key" LiveSession.initial start))
             (LiveSession.SessionOpened 0)) !! 0%nat
  = Some LiveSession.Open.
Proof.
  apply (proj2 (proj2 (session_never_closed_by_client "key"))
           (LiveSession.run "key" LiveSession.initial start) 0%nat
           {| LiveSession.processorConnected := true;
              LiveSession.sessionPromise := LiveSession.Pending [];
              LiveSession.closed := false |} []).
  - reflexivity.
  - reflexivity.
  - reflexivity.
Defined.

(** A teardown while the opening is pending, for any frame captured
    before it: nothing is closed, the session ends open, and the frame is
    sent after the releases. *)
Lemma stop_before_open (f : Float32Array) :
  let s := LiveSession.run "key" LiveSession.initial
             (start ++ frames 0 [f]
              ++ [LiveSession.Unmount; LiveSession.SessionOpened 0]) in
  LiveSession.close_calls s = 0%nat
  /\ LiveSession.session_state <$> LiveSession.captures s !! 0%nat
     = Some LiveSession.Open
  /\ LiveSession.log s
     = [LiveSession.ProcessorDisconnect 0; LiveSession.SourceDisconnect 0;
        LiveSession.TrackStop 0; LiveSession.AudioContextClose 0;
        LiveSession.CancelAnimationFrame 1;
        LiveSession.SendRealtimeInput 0 "audio/pcm;rate=16000"
          (LiveSession.encode f)].
Proof.
  cbv zeta. generalize (eq_refl (LiveSession.encode f)).
  generalize (LiveSession.encode f) at 1 3 as data. intros data Hdata.
  unfold start, frames. cbn [app map LiveSession.run fold_left].
  cbn [LiveSession.step]. cbn -[LiveSession.encode].
  rewrite <- Hdata. repeat split.
Qed.

(** C5 fails as stated: when the component is torn down while the
    opening is pending, the session is never closed (no call of [close],
    the session stays open), and the frame captured before the stop is
    sent after it. *)
Lemma stop_before_open_counterexample :
  let s := LiveSession.run "key" LiveSession.initial
             (start ++ frames 0 [frame1]
              ++ [LiveSession.Unmount; LiveSession.SessionOpened 0]) in
  LiveSession.close_calls s = 0%nat
  /\ LiveSession.session_state <$> LiveSession.captures s !! 0%nat
     = Some LiveSession.Open
  /\ LiveSession.log s
     = [LiveSession.ProcessorDisconnect 0; LiveSession.SourceDisconnect 0;
        LiveSession.TrackStop 0; LiveSession.AudioContextClose 0;
        LiveSession.CancelAnimationFrame 1;
        LiveSession.SendRealtimeInput 0 "audio/pcm;rate=16000"
          (LiveSession.encode frame1)].
Proof. exact (stop_before_open frame1). Qed.

(** C7 is broken by the visualizer's request.  [stopSession] cancels the
    animation frame request but leaves it in [animationFrameRef], so a
    second [stopSession] in a row cancels the same request again. *)
Theorem stopSession_twice_cancels_again (s : LiveSession.state) (id : nat) :
  LiveSession.animationFrameRef s = Some id -> id <> 0%nat ->
  LiveSession.log (LiveSession.stopSession (LiveSession.stopSession s))
  = LiveSession.log (LiveSession.stopSession s)
    ++ [LiveSession.CancelAnimationFrame id].
Proof.
  intros Hid Hne.
  rewrite (stopSession_log (LiveSession.stopSession s)).
  destruct (stopSession_refs s) as (_ & Hp & Hs & Hm & Ha & _ & Hf).
  unfold release_calls. rewrite Hp, Hs, Hm, Ha, Hf, Hid.
  destruct id; [contradiction|reflexivity].
Qed.

Lemma stopSession_twice_cancels_again_witness :
  let s := LiveSession.run "key" LiveSession.initial start in
  LiveSession.log (LiveSession.stopSession (LiveSession.stopSession s))
  = LiveSession.log (LiveSession.stopSession s)
    ++ [LiveSession.CancelAnimationFrame 1].
Proof.
  intros s. apply (stopSession_twice_cancels_again s 1%nat).
  - reflexivity.
  - discriminate.
Defined.

(** ** More on the converter *)

(** X1. Samples outside the unit interval saturate: a binary32 sample of
    value 1 or more, or plus infinity, is stored as 32767; one of value
    -1 or less, or minus infinity, as -32768; a NaN sample is stored
    as 0. *)
Theorem float32ToInt16_saturates (x : spec_float) :
  is_float32 x = true ->
  (x = S754_nan -> float32ToInt16 [x] = [0])
  /\ (x = S754_infinity false
      \/ (exists s m e, x = S754_finite s m e) /\ (1 <= F2Q x)%Q ->
      float32ToInt16 [x] = [32767])
  /\ (x = S754_infinity true
      \/ (exists s m e, x = S754_finite s m e) /\ (F2Q x <= -1)%Q ->
      float32ToInt16 [x] = [-32768]).
Proof.
  intros H32. split; [|split].
  - intros ->. reflexivity.
  - intros [->|[(s & m & e & ->) Hge]]; [reflexivity|].
    rewrite float32ToInt16_map. cbn [map].
    rewrite sample_to_int16_exact by (assumption || discriminate).
    unfold clamped_amplitude, clampQ.
    apply Qle_bool_iff in Hge. rewrite Hge. reflexivity.
  - intros [->|[(s & m & e & ->) Hle]]; [reflexivity|].
    rewrite float32ToInt16_map. cbn [map].
    rewrite sample_to_int16_exact by (assumption || discriminate).
    unfold clamped_amplitude, clampQ.
    destruct (Qle_bool 1 (F2Q (S754_finite s m e))) eqn:Hone.
    + apply Qle_bool_iff in Hone.
      assert (H : (1 <= -1)%Q) by (eapply Qle_trans; eassumption).
      unfold Qle in H. cbn in H. lia.
    + apply Qle_bool_iff in Hle. rewrite Hle. reflexivity.
Qed.

Lemma float32ToInt16_saturates_witness :
  float32ToInt16 [S754_finite false 12582912 (-22)] = [32767].
Proof.
  apply (float32ToInt16_saturates (S754_finite false 12582912 (-22)) eq_refl).
  right. split; [eauto|]. unfold Qle. cbn. lia.
Defined.

(** X2. Every element [float32ToInt16] stores is a 16-bit signed
    integer, whatever the samples are. *)
Theorem float32ToInt16_int16 (a : Float32Array) :
  Forall (fun v => - 32768 <= v <= 32767) (float32ToInt16 a).
Proof.
  eapply Forall_impl; [apply float32ToInt16_range|].
  intros v Hv. unfold is_int16 in Hv. lia.
Qed.

(** X3. Decoding the text produced by [arrayBufferToBase64] gives the
    bytes of the buffer back. *)
Theorem arrayBufferToBase64_decodes (bytes : list Z) :
  Forall (fun b => 0 <= b < 256) bytes ->
  base64_bytes (list_ascii_of_string (arrayBufferToBase64 bytes)) = Some bytes.
Proof.
  intros Hb. rewrite arrayBufferToBase64_btoa_codes by exact Hb.
  apply base64_bytes_btoa_codes, Hb.
Qed.

Lemma arrayBufferToBase64_decodes_witness :
  base64_bytes (list_ascii_of_string (arrayBufferToBase64 [0; 128; 255; 127]))
  = Some [0; 128; 255; 127].
Proof.
  apply arrayBufferToBase64_decodes.
  repeat (constructor; [lia|]). constructor.
Defined.

Section Base64Length.

Lemma btoa_codes_length (codes : list Z) :
  String.length (btoa_codes codes) = (4 * ((length codes + 2) / 3))%nat.
Proof.
  remember (length codes) as n eqn:Hn.
  assert (Hle : (length codes <= n)%nat) by lia.
  rewrite Hn. clear Hn. revert codes Hle.
  induction n as [|n IH]; intros codes Hle.
  { destruct codes; [reflexivity|cbn in Hle; lia]. }
  destruct codes as [|b0 [|b1 [|b2 rest]]]; try reflexivity.
  cbn [btoa_codes String.length length].
  rewrite IH by (cbn in Hle; lia).
  replace (S (S (S (length rest))) + 2)%nat with (1 * 3 + (length rest + 2))%nat by lia.
  rewrite Nat.div_add_l by lia. lia.
Qed.

Lemma string_length_list (s : string) :
  String.length s = length (list_ascii_of_string s).
Proof. induction s as [|c s IH]; cbn; [reflexivity|]. rewrite IH. reflexivity. Qed.

End Base64Length.

(** X4. The text of a buffer of [n] bytes has [4 * ceil(n / 3)]
    characters; for the buffer of an [Int16Array] of [k] samples that is
    [4 * ceil(2k / 3)]. *)
Theorem arrayBufferToBase64_length (bytes : list Z) (a : Int16Array) :
  String.length (arrayBufferToBase64 bytes) = (4 * ((length bytes + 2) / 3))%nat
  /\ String.length (arrayBufferToBase64 (buffer a))
     = (4 * ((2 * length a + 2) / 3))%nat.
Proof.
  assert (H : forall bs, String.length (arrayBufferToBase64 bs)
                         = (4 * ((length bs + 2) / 3))%nat).
  { intros bs. unfold arrayBufferToBase64, btoa.
    rewrite btoa_codes_length, length_map, <- string_length_list.
    rewrite string_length_list, arrayBufferToBase64_loop_spec by lia.
    rewrite drop_0. cbn [list_ascii_of_string app]. rewrite length_map. reflexivity. }
  split; [apply H|]. rewrite H. do 3 f_equal.
  unfold buffer. induction a as [|v a IH]; [reflexivity|].
  cbn [flat_map app length]. rewrite IH. lia.
Qed.

(** X5. The buffer of an [Int16Array] holds two bytes per element, low
    byte first in two's complement: reading the byte pairs back as
    16-bit signed integers gives the array. *)
Theorem buffer_little_endian (a : Int16Array) :
  Forall (fun v => - 32768 <= v < 32768) a ->
  length (buffer a) = (2 * length a)%nat
  /\ Forall (fun b => 0 <= b < 256) (buffer a)
  /\ int16s (buffer a) = Some a.
Proof.
  intros Ha. split; [|split].
  - unfold buffer. clear Ha. induction a as [|v a IH]; [reflexivity|].
    cbn [flat_map app length]. rewrite IH. lia.
  - apply buffer_bytes, Ha.
  - apply int16s_buffer, Ha.
Qed.

Lemma buffer_little_endian_witness :
  length (buffer [-2; 258]) = (2 * length [-2; 258]%Z)%nat
  /\ Forall (fun b => 0 <= b < 256) (buffer [-2; 258])
  /\ int16s (buffer [-2; 258]) = Some [-2; 258].
Proof.
  apply buffer_little_endian. repeat (constructor; [lia|]). constructor.
Defined.

(** X6. What [onaudioprocess] puts on the wire decodes to exactly the
    integers [float32ToInt16] computed, for any frame. *)
Theorem encode_decodes_to_int16 (inputData : Float32Array) :
  decode_int16 (LiveSession.encode inputData) = Some (float32ToInt16 inputData).
Proof. apply decode_int16_encode. Qed.

(** ** More on the reconciler and the export *)

Section ReconcilerRuns.

Lemma reconcile_cons (ev : string * (string * bool))
    (events : list (string * (string * bool))) (prev : list TranscriptSegment) :
  reconcile (ev :: events) prev
  = reconcile events (App.handleLiveUpdate (fst ev) (fst (snd ev)) prev).
Proof. reflexivity. Qed.

Lemma appended_appended (l : TranscriptSegment) (a b : string) :
  appended (appended l a) b = appended l (a +:+ b).
Proof. unfold appended. cbn. rewrite append_assoc. reflexivity. Qed.

Lemma appended_nil (l : TranscriptSegment) : appended l "" = l.
Proof. destruct l. unfold appended. cbn. rewrite append_nil_r. reflexivity. Qed.

(** Once the last segment is live, every further event is appended to
    it. *)
Lemma reconcile_live (events : list (string * (string * bool)))
    (init : list TranscriptSegment) (l : TranscriptSegment) :
  speaker l = "En Vivo" ->
  reconcile events (init ++ [l]) = init ++ [appended l (joined_text events)].
Proof.
  revert l. induction events as [|ev events IH]; intros l Hlive.
  - cbn [joined_text fold_right]. rewrite appended_nil. reflexivity.
  - rewrite reconcile_cons, handleLiveUpdate_append by assumption.
    rewrite IH by exact Hlive. rewrite appended_appended. reflexivity.
Qed.

Lemma prefix_append (s t : string) : String.prefix s (s +:+ t) = true.
Proof.
  induction s as [|c s IH]; [destruct t; reflexivity|].
  rewrite append_cons. cbn [String.prefix].
  destruct (ascii_dec c c) as [_|Hne]; [exact IH|contradiction].
Qed.

Lemma prefix_refl (s : string) : String.prefix s s = true.
Proof. rewrite <- (append_nil_r s) at 2. apply prefix_append. Qed.

End ReconcilerRuns.

(** X7. A run of transcription events on an empty transcript gives one
    segment: it carries the clock reading of the first event and the
    texts of all the events joined, whatever their completion flags; on
    a transcript whose last segment is live, the run only grows that
    segment. *)
Theorem reconcile_run (now text : string) (isFinal : bool)
    (events : list (string * (string * bool)))
    (init : list TranscriptSegment) (l : TranscriptSegment) :
  reconcile ((now, (text, isFinal)) :: events) []
  = [fresh now (text +:+ joined_text events)]
  /\ (speaker l = "En Vivo" ->
      reconcile events (init ++ [l]) = init ++ [appended l (joined_text events)]).
Proof.
  split; [|apply reconcile_live].
  rewrite reconcile_cons. cbn [fst snd]. rewrite handleLiveUpdate_nil.
  change [fresh now text] with ([] ++ [fresh now text]).
  rewrite (reconcile_live events [] (fresh now text) eq_refl).
  reflexivity.
Qed.

Lemma reconcile_run_witness :
  reconcile [("00:02", ("b", true)); ("00:03", ("c", false))]
    ([] ++ [fresh "00:01" "a"])
  = [] ++ [appended (fresh "00:01" "a")
             (joined_text [("00:02", ("b", true)); ("00:03", ("c", false))])].
Proof.
  apply (reconcile_run "" "" false
           [("00:02", ("b", true)); ("00:03", ("c", false))] []
           (fresh "00:01" "a")).
  reflexivity.
Defined.

(** X8. A reconciler update never removes or rewrites a segment: the
    list keeps its length or grows by one, every old segment is still at
    its index with the same speaker, gender and timestamp and with its
    old text as a prefix of the new one, and the last segment of the
    result is always a live one. *)
Theorem handleLiveUpdate_monotone (now text : string)
    (prev : list TranscriptSegment) :
  let next := App.handleLiveUpdate now text prev in
  (length next = length prev \/ length next = S (length prev))
  /\ (exists l, last next = Some l /\ speaker l = "En Vivo")
  /\ (forall (i : nat) seg, prev !! i = Some seg ->
      exists seg', next !! i = Some seg'
        /\ speaker seg' = speaker seg /\ gender seg' = gender seg
        /\ timestamp seg' = timestamp seg
        /\ String.prefix (Types.text seg) (Types.text seg') = true).
Proof.
  intros next. unfold next.
  destruct (list_last_cases prev) as [->|(init & l & ->)].
  - rewrite handleLiveUpdate_nil. split; [right; reflexivity|]. split.
    + exists (fresh now text). split; reflexivity.
    + intros i seg Hseg. destruct i; discriminate.
  - destruct (String.string_dec (speaker l) "En Vivo") as [Hlive|Hother].
    + rewrite handleLiveUpdate_append by assumption. split; [|split].
      * left. rewrite !length_app. reflexivity.
      * exists (appended l text). rewrite last_snoc. split; [reflexivity|exact Hlive].
      * intros i seg Hseg.
        destruct (Nat.lt_ge_cases i (length init)) as [Hlt|Hge].
        -- rewrite lookup_app_l in Hseg |- * by assumption.
           exists seg. repeat split; try assumption. apply prefix_refl.
        -- assert (i = length init) as ->.
           { apply lookup_lt_Some in Hseg. rewrite length_app in Hseg. cbn in Hseg. lia. }
           rewrite list_lookup_middle in Hseg by reflexivity. injection Hseg as <-.
           rewrite list_lookup_middle by reflexivity.
           exists (appended l text). repeat split. apply prefix_append.
    + rewrite handleLiveUpdate_extend by assumption. split; [|split].
      * right. rewrite !length_app. cbn. lia.
      * exists (fresh now text).
        replace (init ++ [l; fresh now text]) with ((init ++ [l]) ++ [fresh now text])
          by (rewrite <- app_assoc; reflexivity).
        rewrite last_snoc. split; reflexivity.
      * intros i seg Hseg. exists seg.
        replace (init ++ [l; fresh now text]) with ((init ++ [l]) ++ [fresh now text])
          by (rewrite <- app_assoc; reflexivity).
        rewrite lookup_app_l by (apply lookup_lt_Some in Hseg; exact Hseg).
        repeat split; try assumption. apply prefix_refl.
Qed.

Section CsvQuoting.

Lemma unquote_body_doubled (cs : list ascii) :
  unquote_body (flat_map doubled cs ++ [App.quote]) = Some cs.
Proof.
  induction cs as [|c cs IH]; [reflexivity|].
  cbn [flat_map]. unfold doubled at 1.
  destruct (Ascii.eqb c App.quote) eqn:Hc.
  - apply Ascii.eqb_eq in Hc. subst c.
    cbn [app unquote_body]. change (Ascii.eqb App.quote App.quote) with true.
    cbn iota. rewrite IH. reflexivity.
  - cbn [app unquote_body]. rewrite Hc, IH. reflexivity.
Qed.

End CsvQuoting.

(** X9. The quoted text field of a row can be read back: undoing the
    quoting of [safeText] gives the text of the segment, whatever
    characters it holds. *)
Theorem safeText_unquotes (t : TranscriptSegment) :
  csv_unquote (App.safeText t) = Some (Types.text t).
Proof.
  rewrite safeText_field. unfold csv_unquote, csv_text_field.
  rewrite list_ascii_of_string_of_list_ascii. cbn [app].
  change (Ascii.eqb App.quote App.quote) with true. cbn iota.
  rewrite unquote_body_doubled. cbn [option_map].
  rewrite string_of_list_ascii_of_string. reflexivity.
Qed.

(** ** More on the service module *)

(** X10. With an API key: a failure of the service call is written once
    on the error console and rethrown unchanged; a response whose text
    is not empty and parses is returned as parsed, with nothing on the
    console. *)
Theorem transcribeAudioFile_outcomes
    (apiKey : string)
    (generateContent : GeminiService.request -> GeminiService.outcome GeminiService.response)
    (JSON_parse : string -> GeminiService.outcome JSON.json)
    (base64Data mimeType : string) :
  apiKey <> "" ->
  let request := {| GeminiService.model := "gemini-2.5-flash";
                    GeminiService.data := base64Data;
                    GeminiService.mimeType := mimeType |} in
  (forall e, generateContent request = GeminiService.Throw e ->
     GeminiService.transcribeAudioFile apiKey generateContent JSON_parse
       base64Data mimeType
     = (GeminiService.Throw e, ["Error en transcripción de archivo:"]))
  /\ (forall jsonText v,
        generateContent request
        = GeminiService.Return {| GeminiService.text := Some jsonText |} ->
        jsonText <> "" ->
        JSON_parse jsonText = GeminiService.Return v ->
        GeminiService.transcribeAudioFile apiKey generateContent JSON_parse
          base64Data mimeType
        = (GeminiService.Return v, [])).
Proof.
  intros Hkey request. unfold GeminiService.transcribeAudioFile, GeminiService.transcribe_try.
  destruct (String.eqb_spec apiKey "") as [|_]; [contradiction|].
  fold request. split.
  - intros e ->. reflexivity.
  - intros jsonText v -> Hne Hparse. cbn.
    destruct (String.eqb_spec jsonText "") as [|_]; [contradiction|].
    rewrite Hparse. reflexivity.
Qed.

Lemma transcribeAudioFile_outcomes_witness :
  GeminiService.transcribeAudioFile "key" (answering (Some "[]"))
    GeminiService.JSON_parse "AAAA" "audio/mp4"
  = (GeminiService.Return (JSON.JArray []), []).
Proof.
  apply (proj2 (transcribeAudioFile_outcomes "key" (answering (Some "[]"))
                  GeminiService.JSON_parse "AAAA" "audio/mp4"
                  ltac:(discriminate)) "[]" (JSON.JArray [])).
  - reflexivity.
  - discriminate.
  - reflexivity.
Defined.

(** X11. The [onmessage] callback passes a transcription on exactly when
    the message carries an input transcription with a text that is not
    empty; the flag passed is the message's [turnComplete], false when
    absent.  So the reconciler never receives an empty text. *)
Theorem onmessage_delivers (msg : GeminiService.message) (t : string) (b : bool) :
  GeminiService.onmessage msg = Some (t, b)
  <-> exists sc tx,
        GeminiService.content msg = Some sc
        /\ GeminiService.inputTranscription sc = Some tx
        /\ GeminiService.tx_text tx = Some t
        /\ t <> ""
        /\ b = default false (GeminiService.turnComplete sc).
Proof.
  unfold GeminiService.onmessage. split.
  - destruct (GeminiService.content msg) as [sc|]; [|discriminate].
    destruct (GeminiService.inputTranscription sc) as [tx|] eqn:Htx; [|discriminate].
    destruct (GeminiService.tx_text tx) as [t'|] eqn:Ht; [|discriminate].
    destruct (String.eqb_spec t' "") as [|Hne]; [discriminate|].
    intros H. injection H as -> <-. exists sc, tx. repeat split; assumption.
  - intros (sc & tx & -> & -> & -> & Hne & ->).
    destruct (String.eqb_spec t "") as [|_]; [contradiction|reflexivity].
Qed.

(** ** The file uploader *)

Section DataUrl.
Import FileUploader.



End DataUrl.



(** ** More on the live session *)

Lemma stopSession_released (t : LiveSession.state) :
  LiveSession.isActive t = false ->
  LiveSession.processorRef t = None -> LiveSession.sourceRef t = None ->
  LiveSession.mediaStreamRef t = None -> LiveSession.audioContextRef t = None ->
  LiveSession.sessionRef t = None ->
  LiveSession.stopSession t = LiveSession.cancel_animation t.
Proof.
  intros Hact Hp Hs Hm Ha He.
  unfold LiveSession.stopSession.
  unfold LiveSession.release_processor; fields; rewrite Hp.
  unfold LiveSession.release_source; fields; rewrite Hs.
  unfold LiveSession.release_stream; fields; rewrite Hm.
  unfold LiveSession.release_context; fields; rewrite Ha.
  unfold LiveSession.release_session; fields; rewrite He.
  unfold LiveSession.set_isActive. rewrite <- Hact. reflexivity.
Qed.

Lemma filter_filter_frames (id : nat) (l : list nat) :
  List.filter (fun i => negb (i =? id)%nat)
    (List.filter (fun i => negb (i =? id)%nat) l)
  = List.filter (fun i => negb (i =? id)%nat) l.
Proof.
  induction l as [|x l IH]; [reflexivity|]. cbn [List.filter].
  destruct (negb (x =? id)%nat) eqn:Hx; [|exact IH].
  cbn [List.filter]. rewrite Hx, IH. reflexivity.
Qed.

Lemma stopSession_frames (s : LiveSession.state) :
  LiveSession.scheduledFrames (LiveSession.stopSession s)
  = match LiveSession.animationFrameRef s with
    | Some id =>
        List.filter (fun i => negb (i =? id)%nat) (LiveSession.scheduledFrames s)
    | None => LiveSession.scheduledFrames s
    end
  \/ LiveSession.animationFrameRef s = Some 0%nat.
Proof. stop_cases s; auto. Qed.

(** X13. [stopSession] on a component that holds nothing (inactive, every
    ref empty) changes nothing and calls nothing. *)
Theorem stopSession_idle (s : LiveSession.state) :
  LiveSession.isActive s = false ->
  LiveSession.processorRef s = None -> LiveSession.sourceRef s = None ->
  LiveSession.mediaStreamRef s = None -> LiveSession.audioContextRef s = None ->
  LiveSession.sessionRef s = None -> LiveSession.animationFrameRef s = None ->
  LiveSession.stopSession s = s.
Proof.
  intros Hact Hp Hs Hm Ha He Hf.
  rewrite stopSession_released by assumption.
  unfold LiveSession.cancel_animation. rewrite Hf. reflexivity.
Qed.

Lemma stopSession_idle_witness :
  LiveSession.stopSession LiveSession.initial = LiveSession.initial.
Proof. apply stopSession_idle; reflexivity. Defined.

(** X14. A second [stopSession] in a row releases nothing of the audio
    graph again: its only call is the repeated cancellation of the
    animation frame request, and it leaves every field of the state but
    the log as the first stop left it. *)
Theorem stopSession_second_stop (s : LiveSession.state) :
  LiveSession.log (LiveSession.stopSession (LiveSession.stopSession s))
  = LiveSession.log (LiveSession.stopSession s) ++ cancel_again s
  /\ same_but_log (LiveSession.stopSession (LiveSession.stopSession s))
       (LiveSession.stopSession s).
Proof.
  destruct (stopSession_refs s) as (Hact & Hp & Hs & Hm & Ha & He & Hf).
  split.
  - rewrite (stopSession_log (LiveSession.stopSession s)).
    unfold release_calls, cancel_again. rewrite Hp, Hs, Hm, Ha, Hf. reflexivity.
  - rewrite (stopSession_released (LiveSession.stopSession s)) by assumption.
    pose proof (stopSession_frames s) as Hfr. revert Hfr.
    unfold LiveSession.cancel_animation. rewrite Hf.
    generalize (LiveSession.stopSession s). intros u Hfr.
    unfold same_but_log.
    destruct (LiveSession.animationFrameRef s) as [[|id]|];
      [repeat split|cbn [Nat.eqb]; fields|repeat split].
    destruct Hfr as [Hfr|Hfr]; [|discriminate].
    repeat split. rewrite Hfr. apply filter_filter_frames.
Qed.

(** X15. The teardown order of [stopSession]: processor, source, tracks,
    audio context, then the animation frame request, each only when its
    ref is set; afterwards the component is inactive, the five guarded
    refs are empty and the processor of the released capture no longer
    runs. *)
Theorem stopSession_teardown (s : LiveSession.state) :
  LiveSession.log (LiveSession.stopSession s) = LiveSession.log s ++ release_calls s
  /\ LiveSession.isActive (LiveSession.stopSession s) = false
  /\ LiveSession.processorRef (LiveSession.stopSession s) = None
  /\ LiveSession.sourceRef (LiveSession.stopSession s) = None
  /\ LiveSession.mediaStreamRef (LiveSession.stopSession s) = None
  /\ LiveSession.audioContextRef (LiveSession.stopSession s) = None
  /\ LiveSession.sessionRef (LiveSession.stopSession s) = None
  /\ LiveSession.captures (LiveSession.stopSession s)
     = match LiveSession.processorRef s with
       | Some k => alter LiveSession.disconnect k (LiveSession.captures s)
       | None => LiveSession.captures s
       end.
Proof.
  destruct (stopSession_refs s) as (H1 & H2 & H3 & H4 & H5 & H6 & _).
  repeat split; try assumption.
  - apply stopSession_log.
  - apply stopSession_captures.
Qed.



Section Captures.
Import LiveSession.
Variable apiKey : string.

Lemma captures_stopSession (p0 : promise) (s : state) :
  captures_step p0 (captures s) (captures (stopSession s)).
Proof.
  rewrite stopSession_captures. destruct (processorRef s) as [k|].
  - apply cs_keep. reflexivity.
  - apply cs_same.
Qed.

Lemma captures_fold_send (k : nat) (rs : list string) (s : state) :
  captures (fold_left (fun s d => send k d s) rs s) = captures s.
Proof. apply fold_send. Qed.

Lemma captures_fold_not_ready (rs : list string) (s : state) :
  captures (fold_left (fun s (_ : string) => not_ready s) rs s) = captures s.
Proof.
  revert s. induction rs as [|d rs IH]; intros s; cbn [fold_left]; [reflexivity|].
  rewrite IH. reflexivity.
Qed.

(** What one callback does to the captures. *)
Lemma step_captures (s : state) (ev : event) :
  captures_step (connecting apiKey) (captures s) (captures (step apiKey s ev)).
Proof.
  destruct ev as [| | | |k f|k|k|k|k|k msg now|id]; cbn [step].
  - destruct (isActive s); [apply captures_stopSession|apply cs_same].
  - apply (captures_stopSession _ (set_canvasRef false s)).
  - destruct (micRequests s); [apply cs_same|].
    unfold startSession_granted, drawVisualizer. cbn.
    destruct (canvasRef s); cbn; apply cs_new; reflexivity.
  - destruct (micRequests s); apply cs_same.
  - destruct (captures s !! k) as [c|] eqn:Hc; [|apply cs_same].
    destruct (processorConnected c); [|apply cs_same].
    unfold onaudioprocess. destruct (sessionPromise c) as [rs| |] eqn:Hp;
      try apply cs_same.
    cbn. eapply cs_settle; eassumption.
  - destruct (captures s !! k) as [c|] eqn:Hc; [|apply cs_same].
    destruct (sessionPromise c) as [rs| |] eqn:Hp; try apply cs_same.
    rewrite captures_fold_send. cbn. eapply cs_settle; eassumption.
  - destruct (captures s !! k) as [c|] eqn:Hc; [|apply cs_same].
    destruct (sessionPromise c) as [rs| |] eqn:Hp; try apply cs_same.
    rewrite captures_fold_not_ready. cbn. eapply cs_settle; eassumption.
  - destruct (captures s !! k) as [c|]; [|apply cs_same].
    unfold onError.
    apply (captures_stopSession _
             (set_error (Some "Error de conexión con la API en vivo.")
                (call (ConsoleError "Live API Error:") s))).
  - destruct (captures s !! k) as [c|]; [|apply cs_same].
    cbn. apply cs_keep. reflexivity.
  - destruct (captures s !! k) as [c|]; [|apply cs_same].
    destruct (sessionPromise c), (GeminiService.onmessage msg); apply cs_same.
  - destruct (existsb (Nat.eqb id) (scheduledFrames s)); apply cs_same.
Qed.

Lemma settled_step (p0 : promise) (cs cs' : list capture) (k : nat) (p : promise) :
  captures_step p0 cs cs' -> settled_at k p cs -> settled_at k p cs'.
Proof.
  intros Hstep (Hp & c & Hc & Hpc). split; [exact Hp|].
  destruct Hstep as [|f k' Hf|q k' c' rs Hc' Hp'|c' _].
  - eauto.
  - destruct (decide (k' = k)) as [->|Hne].
    + exists (f c). rewrite list_lookup_alter_eq, Hc. split; [reflexivity|].
      rewrite Hf. exact Hpc.
    + exists c. rewrite list_lookup_alter_ne by exact Hne. auto.
  - destruct (decide (k' = k)) as [->|Hne].
    + rewrite Hc in Hc'. injection Hc' as <-. rewrite Hp' in Hpc.
      destruct Hp as [->| ->]; discriminate.
    + exists c. rewrite list_lookup_alter_ne by exact Hne. auto.
  - exists c. rewrite lookup_app_l; [auto|]. eapply lookup_lt_Some; eassumption.
Qed.

Lemma settled_run (s : state) (trace : list event) (k : nat) (p : promise) :
  settled_at k p (captures s) -> settled_at k p (captures (run apiKey s trace)).
Proof.
  revert s. induction trace as [|ev trace IH]; intros s Hs; [exact Hs|].
  cbn [run fold_left]. fold (run apiKey (step apiKey s ev) trace).
  apply IH. eapply settled_step; [apply step_captures|exact Hs].
Qed.

Lemma open_release_calls (cs : list capture) (s : state) :
  Forall (to_open_session cs) (release_calls s).
Proof.
  unfold release_calls.
  destruct (processorRef s), (sourceRef s), (mediaStreamRef s),
    (audioContextRef s), (animationFrameRef s) as [[|?]|];
    cbn; repeat constructor.
Qed.

Lemma open_not_ready (cs : list capture) (ds : list string) :
  Forall (to_open_session cs) (map (fun _ => ConsoleError "Session not ready") ds).
Proof. induction ds as [|d ds IH]; cbn; constructor; [exact I|exact IH]. Qed.

Lemma open_sends (cs : list capture) (k : nat) (ds : list string) :
  settled_at k Fulfilled cs ->
  Forall (to_open_session cs) (map (SendRealtimeInput k mime) ds).
Proof.
  intros Hk. induction ds as [|d ds IH]; cbn; constructor; [|exact IH].
  split; [reflexivity|exact Hk].
Qed.

(** What one callback adds to the log. *)
Lemma step_log (s : state) (ev : event) :
  exists l, log (step apiKey s ev) = log s ++ l
            /\ Forall (to_open_session (captures (step apiKey s ev))) l.
Proof.
  destruct ev as [| | | |k f|k|k|k|k|k msg now|id]; cbn [step].
  - destruct (isActive s).
    + exists (release_calls s). split; [apply stopSession_log|apply open_release_calls].
    + exists []. split; [symmetry; apply app_nil_r|constructor].
  - exists (release_calls (set_canvasRef false s)).
    split; [exact (stopSession_log (set_canvasRef false s))|apply open_release_calls].
  - exists []. split; [|constructor]. rewrite app_nil_r.
    destruct (micRequests s); [reflexivity|].
    unfold startSession_granted, drawVisualizer. cbn.
    destruct (canvasRef s); reflexivity.
  - destruct (micRequests s).
    + exists []. split; [symmetry; apply app_nil_r|constructor].
    + eexists. split; [reflexivity|]. repeat constructor.
  - destruct (captures s !! k) as [c|] eqn:Hc;
      [|exists []; split; [symmetry; apply app_nil_r|constructor]].
    destruct (processorConnected c);
      [|exists []; split; [symmetry; apply app_nil_r|constructor]].
    unfold onaudioprocess. destruct (sessionPromise c) as [rs| |] eqn:Hp.
    + exists []. split; [symmetry; apply app_nil_r|constructor].
    + eexists. split; [reflexivity|]. constructor; [|constructor].
      cbn. split; [reflexivity|]. split; [left; reflexivity|]. eauto.
    + eexists. split; [reflexivity|]. repeat constructor.
  - destruct (captures s !! k) as [c|] eqn:Hc;
      [|exists []; split; [symmetry; apply app_nil_r|constructor]].
    destruct (sessionPromise c) as [rs| |] eqn:Hp;
      try (exists []; split; [symmetry; apply app_nil_r|constructor]).
    destruct (fold_send k rs (update_capture k (settle Fulfilled) (onOpen s)))
      as [Hl Hcs].
    exists (map (SendRealtimeInput k mime) rs). split; [exact Hl|].
    rewrite Hcs. cbn. apply open_sends. split; [left; reflexivity|].
    exists (settle Fulfilled c). rewrite list_lookup_alter_eq, Hc. split; reflexivity.
  - destruct (captures s !! k) as [c|] eqn:Hc;
      [|exists []; split; [symmetry; apply app_nil_r|constructor]].
    destruct (sessionPromise c) as [rs| |] eqn:Hp;
      try (exists []; split; [symmetry; apply app_nil_r|constructor]).
    eexists. split; [|apply open_not_ready].
    exact (fold_not_ready rs (update_capture k (settle Rejected) s)).
  - destruct (captures s !! k) as [c|];
      [|exists []; split; [symmetry; apply app_nil_r|constructor]].
    unfold onError. eexists. split.
    + rewrite stopSession_log. cbn. rewrite <- app_assoc. reflexivity.
    + constructor; [exact I|apply open_release_calls].
  - exists []. split; [|constructor]. rewrite app_nil_r.
    destruct (captures s !! k); reflexivity.
  - exists []. split; [|constructor]. rewrite app_nil_r.
    destruct (captures s !! k) as [c|]; [|reflexivity].
    destruct (sessionPromise c), (GeminiService.onmessage msg); reflexivity.
  - exists []. split; [|constructor]. rewrite app_nil_r.
    destruct (existsb (Nat.eqb id) (scheduledFrames s)); reflexivity.
Qed.

Lemma open_step (p0 : promise) (cs cs' : list capture) (e : effect) :
  captures_step p0 cs cs' -> to_open_session cs e -> to_open_session cs' e.
Proof.
  intros Hstep. destruct e; cbn; try exact (fun H => H).
  intros [Hm Hk]. split; [exact Hm|]. eapply settled_step; eassumption.
Qed.

Lemma sends_step (s : state) (ev : event) :
  sends_to_open_sessions s -> sends_to_open_sessions (step apiKey s ev).
Proof.
  unfold sends_to_open_sessions. intros Hs.
  destruct (step_log s ev) as (l & -> & Hl).
  apply Forall_app. split; [|exact Hl].
  eapply Forall_impl; [exact Hs|].
  intros e. apply (open_step (connecting apiKey)). apply step_captures.
Qed.

Lemma sends_run (s : state) (trace : list event) :
  sends_to_open_sessions s -> sends_to_open_sessions (run apiKey s trace).
Proof.
  revert s. induction trace as [|ev trace IH]; intros s Hs; [exact Hs|].
  cbn [run fold_left]. fold (run apiKey (step apiKey s ev) trace).
  apply IH, sends_step, Hs.
Qed.

Lemma rejected_step (cs cs' : list capture) :
  captures_step Rejected cs cs' ->
  Forall (fun c => sessionPromise c = Rejected) cs ->
  Forall (fun c => sessionPromise c = Rejected) cs'.
Proof.
  intros Hstep Hcs. destruct Hstep as [|f k Hf|q k c rs Hc Hp|c Hc].
  - exact Hcs.
  - apply Forall_alter; [exact Hcs|]. intros c _ Hc. rewrite Hf. exact Hc.
  - rewrite Forall_lookup in Hcs. specialize (Hcs k c Hc). cbn in Hcs.
    rewrite Hp in Hcs. discriminate.
  - apply Forall_app. split; [exact Hcs|]. constructor; [exact Hc|constructor].
Qed.

Lemma sent_none (s : state) :
  sends_to_open_sessions s -> all_rejected s -> sent s = [].
Proof.
  unfold sends_to_open_sessions, all_rejected, sent.
  generalize (captures s) as cs. intros cs Hl Hcs.
  induction (log s) as [|e l IH]; [reflexivity|].
  inversion Hl as [|e' l' He Hl']; subst.
  destruct e; try exact (IH Hl'). cbn in He.
  destruct He as (_ & _ & c & Hc & Hp).
  rewrite Forall_lookup in Hcs. specialize (Hcs _ _ Hc). cbn in Hcs.
  rewrite Hp in Hcs. discriminate.
Qed.

End Captures.

(** X17. A settled session promise never changes: once the promise of
    capture [k] is fulfilled or rejected, it stays so through every
    later callback, whatever the trace. *)
Theorem promise_settles_once (apiKey : string) (s : LiveSession.state)
    (trace : list LiveSession.event) (k : nat) (p : LiveSession.promise) :
  settled_at k p (LiveSession.captures s) ->
  settled_at k p (LiveSession.captures (LiveSession.run apiKey s trace)).
Proof. apply settled_run. Qed.

Lemma promise_settles_once_witness :
  settled_at 0 LiveSession.Fulfilled
    (LiveSession.captures
       (LiveSession.run "key"
          (LiveSession.run "key" LiveSession.initial
             (start ++ [LiveSession.SessionOpened 0%nat]))
          [LiveSession.SessionFailed 0%nat; LiveSession.Click;
           LiveSession.SessionClosed 0%nat])).
Proof.
  apply promise_settles_once. split; [left; reflexivity|].
  eexists. split; reflexivity.
Defined.

(** X18. On every trace of callbacks from the initial state, every call
    of [sendRealtimeInput] carries the MIME type of 16 kHz PCM and goes
    to a session whose promise is fulfilled: nothing is ever sent to a
    session that is still connecting or that failed. *)
Theorem sends_only_to_open_sessions (apiKey : string)
    (trace : list LiveSession.event) :
  sends_to_open_sessions (LiveSession.run apiKey LiveSession.initial trace).
Proof. apply sends_run. constructor. Qed.

(** X19. Without an API key no audio ever leaves the component: on
    every trace every session promise is rejected and nothing is sent. *)
Theorem no_key_no_audio (trace : list LiveSession.event) :
  all_rejected (LiveSession.run "" LiveSession.initial trace)
  /\ LiveSession.sent (LiveSession.run "" LiveSession.initial trace) = [].
Proof.
  assert (Hrej : all_rejected (LiveSession.run "" LiveSession.initial trace)).
  { unfold all_rejected.
    assert (H0 : Forall (fun c => LiveSession.sessionPromise c = LiveSession.Rejected)
                   (LiveSession.captures LiveSession.initial)) by constructor.
    revert H0. generalize LiveSession.initial as s.
    induction trace as [|ev trace IH]; intros s Hs; [exact Hs|].
    cbn [LiveSession.run fold_left].
    apply (IH (LiveSession.step "" s ev)).
    eapply rejected_step; [|exact Hs]. apply (step_captures "" s ev). }
  split; [exact Hrej|].
  apply sent_none; [|exact Hrej]. apply sends_run. constructor.
Qed.

Lemma stopSession_error (s : LiveSession.state) :
  LiveSession.error (LiveSession.stopSession s) = LiveSession.error s.
Proof. stop_cases s; reflexivity. Qed.

(** X20. The error callback of a session shows the connection error and
    tears the capture down: one console error, then the releases of
    [stopSession]; afterwards the component is inactive with its refs
    empty and the error message set. *)
Theorem connection_error_tears_down (apiKey : string) (s : LiveSession.state)
    (k : nat) (c : LiveSession.capture) :
  LiveSession.captures s !! k = Some c ->
  let s' := LiveSession.step apiKey s (LiveSession.SessionError k) in
  LiveSession.error s' = Some "Error de conexión con la API en vivo."
  /\ LiveSession.isActive s' = false
  /\ LiveSession.processorRef s' = None
  /\ LiveSession.sourceRef s' = None
  /\ LiveSession.mediaStreamRef s' = None
  /\ LiveSession.audioContextRef s' = None
  /\ LiveSession.sessionRef s' = None
  /\ LiveSession.log s'
     = LiveSession.log s
       ++ LiveSession.ConsoleError "Live API Error:" :: release_calls s.
Proof.
  intros Hc s'. subst s'. cbn [LiveSession.step]. rewrite Hc.
  unfold LiveSession.onError.
  set (t := LiveSession.set_error _ _).
  destruct (stopSession_refs t) as (H1 & H2 & H3 & H4 & H5 & H6 & _).
  repeat split; try assumption.
  - rewrite stopSession_error. reflexivity.
  - rewrite stopSession_log. subst t. cbn. rewrite <- app_assoc. reflexivity.
Qed.

Lemma connection_error_tears_down_witness :
  LiveSession.error
    (LiveSession.step "key" (LiveSession.run "key" LiveSession.initial start)
       (LiveSession.SessionError 0))
  = Some "Error de conexión con la API en vivo.".
Proof.
  eapply (connection_error_tears_down "key"
            (LiveSession.run "key" LiveSession.initial start) 0%nat).
  reflexivity.
Defined.

(** X21. [startSession] does not release a capture that is already
    running: when the microphone is granted again while capture [k]
    runs, the refs move to the new capture, and a later [stopSession]
    releases only that one; the processor of capture [k] stays
    connected. *)
Theorem second_start_keeps_first_capture (apiKey : string)
    (s : LiveSession.state) (k n : nat) (p : LiveSession.promise) :
  running k p s ->
  LiveSession.micRequests s = S n ->
  running k p
    (LiveSession.stopSession (LiveSession.step apiKey s LiveSession.MicGranted)).
Proof.
  intros (c & Hc & Hon & Hp) Hn.
  pose proof (lookup_lt_Some _ _ _ Hc) as Hlt.
  exists c. split; [|auto].
  rewrite stopSession_captures. cbn [LiveSession.step]. rewrite Hn.
  unfold LiveSession.startSession_granted, LiveSession.drawVisualizer. cbn.
  destruct (LiveSession.canvasRef s); cbn;
    (rewrite list_lookup_alter_ne by lia; rewrite lookup_app_l by exact Hlt;
     exact Hc).
Qed.

Lemma second_start_keeps_first_capture_witness :
  running 0 (LiveSession.Pending [])
    (LiveSession.stopSession
       (LiveSession.step "key"
          (LiveSession.run "key" LiveSession.initial (start ++ [LiveSession.Click]))
          LiveSession.MicGranted)).
Proof.
  apply (second_start_keeps_first_capture "key" _ 0%nat 0%nat).
  - eexists. repeat split.
  - reflexivity.
Defined.

Lemma existsb_filter_frames (id : nat) (l : list nat) :
  existsb (Nat.eqb id) (List.filter (fun i => negb (i =? id)%nat) l) = false.
Proof.
  induction l as [|x l IH]; [reflexivity|]. cbn [List.filter].
  destruct (x =? id)%nat eqn:Hx; cbn [negb]; [exact IH|].
  cbn [existsb]. rewrite IH, Nat.eqb_sym, Hx. reflexivity.
Qed.

(** X22. The visualizer stops with the session: after [stopSession] the
    animation frame callback that was requested last no longer runs. *)
Theorem visualizer_stops (apiKey : string) (s : LiveSession.state) (id : nat) :
  LiveSession.animationFrameRef s = Some id -> id <> 0%nat ->
  LiveSession.step apiKey (LiveSession.stopSession s) (LiveSession.AnimationFrame id)
  = LiveSession.stopSession s.
Proof.
  intros Hid Hne. cbn [LiveSession.step].
  destruct (stopSession_frames s) as [Hfr|Hfr].
  - rewrite Hfr, Hid, existsb_filter_frames. reflexivity.
  - rewrite Hid in Hfr. injection Hfr as ->. contradiction.
Qed.

Lemma visualizer_stops_witness :
  let s := LiveSession.run "key" LiveSession.initial start in
  LiveSession.step "key" (LiveSession.stopSession s) (LiveSession.AnimationFrame 1)
  = LiveSession.stopSession s.
Proof.
  intros s. apply (visualizer_stops "key" s 1%nat).
  - reflexivity.
  - discriminate.
Defined.
